(** * iouring-go: the ring controller ([ring.go]) and its constants

    A shallow embedding of [ring.go] and of the constant table it uses.
    Unsigned machine integers are [Z] with the wrap-around written out,
    pointers that the code compares with [nil] are [option], the shared
    head/tail cells of the submit queue are fields that an environment
    (other goroutines, the kernel) may rewrite between two atomic
    operations, and the kernel boundary is a deterministic responder over
    the history of calls. *)

From Stdlib Require Import String ZArith List Bool Lia Sorted FinFun.
Import ListNotations.
Open Scope Z_scope.

(** ** Constants *)

(** [io_uring_params->features] flags. *)
Definition FeatSingleMmap : Z := Z.shiftl 1 0.
Definition FeatNoDrop : Z := Z.shiftl 1 1.
Definition FeatSubMitStable : Z := Z.shiftl 1 2.
Definition FeatRwCurPos : Z := Z.shiftl 1 3.
Definition FeatCurPersonality : Z := Z.shiftl 1 4.

(** [io_uring_setup()] flags. *)
Definition SetupIOPoll : Z := Z.shiftl 1 0.
Definition SetupSQPoll : Z := Z.shiftl 1 1.
Definition SetupSQAFF : Z := Z.shiftl 1 2.

(** Magic offsets for the application to mmap the data it needs. *)
Definition SqRingOffset : Z := 0.
Definition CqRingOffset : Z := 0x8000000.
Definition SqeSOffset : Z := 0x10000000.

(** [io_uring_register(2)] opcodes. *)
Definition RegisterBuffers : Z := 0.
Definition UnregisterBuffers : Z := 1.
Definition RegisterFiles : Z := 2.
Definition UnregisterFiles : Z := 3.
Definition RegisterEventfd : Z := 4.
Definition UnregisteREventfd : Z := 5.

(** The register opcodes in the order the constant block declares them. *)
Definition register_opcodes : list Z :=
  [RegisterBuffers; UnregisterBuffers; RegisterFiles; UnregisterFiles;
   RegisterEventfd; UnregisteREventfd].

(** ** Machine integers *)

Definition uint32_modulus : Z := 2 ^ 32.
Definition uint64_modulus : Z := 2 ^ 64.
Definition uint32 (z : Z) : Z := z mod uint32_modulus.
Definition uint64 (z : Z) : Z := z mod uint64_modulus.

(** ** Queue descriptors *)

(** Modelled from the spec: the ring state type is declared outside
    [ring.go]; the spec gives it three values, Empty, Filling and Full, and
    [New] names the first one [RingStateEmpty]. *)
Inductive RingState : Type :=
| RingStateEmpty
| RingStateFilling
| RingStateFull.

(** Modelled from the spec: the [SubmitQueue] struct is declared outside
    [ring.go]; these are the fields [ring.go] reads and writes.  [Head] and
    [Tail] are the contents of the shared 32-bit cells the struct points
    to, [state] the contents of the cell [New] allocates.  The two cells
    are taken as mapped: a queue whose [Head] or [Tail] pointer is nil is
    not represented, so nothing below speaks of a queue that [MmapRing]
    left without them. *)
Module SubmitQueue.
Record t : Type := mk {
  Size : Z;
  Head : Z;
  Tail : Z;
  ptr : Z;
  state : RingState
}.
Definition set_Head (h : Z) (q : t) : t := mk (Size q) h (Tail q) (ptr q) (state q).
Definition set_Tail (x : Z) (q : t) : t := mk (Size q) (Head q) x (ptr q) (state q).
Definition set_state (s : RingState) (q : t) : t := mk (Size q) (Head q) (Tail q) (ptr q) s.
End SubmitQueue.

(** Modelled from the spec: the [CompletionQueue] struct is declared outside
    [ring.go]; [closeCq] reads its [ptr] and [Size]. *)
Module CompletionQueue.
Record t : Type := mk {
  Size : Z;
  ptr : Z
}.
End CompletionQueue.

(** ** sync/atomic on the submit queue's cells *)

(** [atomic.AddUint32(r.sq.Head, delta)]: the new value and the queue. *)
Definition AddUint32_Head (q : SubmitQueue.t) (delta : Z) : Z * SubmitQueue.t :=
  let v := uint32 (SubmitQueue.Head q + delta) in
  (v, SubmitQueue.set_Head v q).

(** [atomic.CompareAndSwapUint32(r.sq.Head, old, new)]. *)
Definition CompareAndSwapUint32_Head (q : SubmitQueue.t) (old new : Z)
  : bool * SubmitQueue.t :=
  if SubmitQueue.Head q =? old
  then (true, SubmitQueue.set_Head new q)
  else (false, q).

(** [atomic.LoadUint32(r.sq.Tail)]. *)
Definition LoadUint32_Tail (q : SubmitQueue.t) : Z := SubmitQueue.Tail q.

(** ** [Sqe]: the goto loop as a machine over its atomic operations *)

(** Where a goroutine executing [Sqe] stands: about to run the
    [AddUint32] at label [getIdx]; holding [v == Size] and about to run
    the compare-and-swap; about to load the tail; or returned. *)
Inductive SqePc : Type :=
| AtGetIdx
| AtWrap (v : Z)
| AtTail (v : Z)
| Returned (v : Z).

(** What one step of [Sqe] does that another party can observe. *)
Inductive SqeEvent : Type :=
| EvAddHead (v : Z)
| EvCasHead (old new : Z) (swapped : bool)
| EvLoadTail (tail : Z)
| EvGosched
| EvReturn (v : Z).

(** One atomic operation of [Sqe] together with the branch that follows
    it.  The value returned is [int(v)], which is [v] itself where [int]
    has 64 bits. *)
Definition Sqe_step (q : SubmitQueue.t) (pc : SqePc)
  : SubmitQueue.t * SqePc * list SqeEvent :=
  match pc with
  | AtGetIdx =>
      let '(v, q1) := AddUint32_Head q 1 in
      if v =? SubmitQueue.Size q
      then (q1, AtWrap v, [EvAddHead v])
      else (q1, AtTail v, [EvAddHead v])
  | AtWrap v =>
      let '(swapped, q1) := CompareAndSwapUint32_Head q v 0 in
      if negb swapped
      then (q1, AtGetIdx, [EvCasHead v 0 false; EvGosched])
      else (q1, AtTail v, [EvCasHead v 0 true])
  | AtTail v =>
      let tail := LoadUint32_Tail q in
      if negb (tail =? v)
      then (q, Returned v, [EvLoadTail tail; EvReturn v])
      else (q, AtGetIdx, [EvLoadTail tail; EvGosched])
  | Returned v => (q, Returned v, [])
  end.

(** What the rest of the world does to the shared head and tail cells
    between two atomic operations of this goroutine. *)
Definition interference : Type := Z * Z -> Z * Z.

Definition quiet : interference := fun cells => cells.

Definition interfere (e : interference) (q : SubmitQueue.t) : SubmitQueue.t :=
  let '(h, x) := e (SubmitQueue.Head q, SubmitQueue.Tail q) in
  SubmitQueue.set_Tail (uint32 x) (SubmitQueue.set_Head (uint32 h) q).

(** Runs [Sqe] from [pc]; before each atomic operation the next item of
    [env] acts on the cells.  The run stops at the return, or when [env]
    is used up (its length is the fuel). *)
Fixpoint Sqe_run (env : list interference) (q : SubmitQueue.t) (pc : SqePc)
  : SqePc * SubmitQueue.t * list SqeEvent :=
  match pc with
  | Returned _ => (pc, q, [])
  | _ =>
      match env with
      | [] => (pc, q, [])
      | e :: env' =>
          let '(q1, pc1, ev1) := Sqe_step (interfere e q) pc in
          let '(pc2, q2, ev2) := Sqe_run env' q1 pc1 in
          (pc2, q2, ev1 ++ ev2)
      end
  end.

Definition returned (pc : SqePc) : option Z :=
  match pc with
  | Returned v => Some v
  | _ => None
  end.

(** [Sqe] on a queue: the index it returns ([None] when [env] ran out
    first), the queue it leaves and the operations it performed. *)
Definition Sqe_on (env : list interference) (q : SubmitQueue.t)
  : option Z * SubmitQueue.t * list SqeEvent :=
  let '(pc, q', tr) := Sqe_run env q AtGetIdx in
  (returned pc, q', tr).

(** ** The allocator as the design describes it

    A second definition, written from the four steps of the allocator's
    description and not from [ring.go]: a retry loop around one attempt.
    It is compared with [Sqe_on] below. *)

Inductive attempt_outcome : Type :=
| Slot (v : Z)
| Retry
| Starved.

(** Steps 3 and 4: read the tail; the slot is free when the tail differs
    from the candidate, otherwise yield and retry. *)
Definition acquireSlot_read_tail (v : Z) (env : list interference)
  (q : SubmitQueue.t) (done : list SqeEvent)
  : attempt_outcome * list interference * SubmitQueue.t * list SqeEvent :=
  match env with
  | [] => (Starved, [], q, done)
  | e :: env' =>
      let q' := interfere e q in
      let tail := SubmitQueue.Tail q' in
      if tail =? v
      then (Retry, env', q', done ++ [EvLoadTail tail; EvGosched])
      else (Slot v, env', q', done ++ [EvLoadTail tail; EvReturn v])
  end.

(** Steps 1 and 2: increment the head to get the candidate; at the ring
    size swap the head from the candidate to 0, and on failure yield and
    retry. *)
Definition acquireSlot_attempt (env : list interference) (q : SubmitQueue.t)
  : attempt_outcome * list interference * SubmitQueue.t * list SqeEvent :=
  match env with
  | [] => (Starved, [], q, [])
  | e1 :: env1 =>
      let q1 := interfere e1 q in
      let v := uint32 (SubmitQueue.Head q1 + 1) in
      let q2 := SubmitQueue.set_Head v q1 in
      if v =? SubmitQueue.Size q2 then
        match env1 with
        | [] => (Starved, [], q2, [EvAddHead v])
        | e2 :: env2 =>
            let q3 := interfere e2 q2 in
            if SubmitQueue.Head q3 =? v
            then acquireSlot_read_tail v env2 (SubmitQueue.set_Head 0 q3)
                   [EvAddHead v; EvCasHead v 0 true]
            else (Retry, env2, q3, [EvAddHead v; EvCasHead v 0 false; EvGosched])
        end
      else acquireSlot_read_tail v env1 q2 [EvAddHead v]
  end.

(** The retry loop: at most [attempts] attempts. *)
Fixpoint acquireSlot (attempts : nat) (env : list interference) (q : SubmitQueue.t)
  : option Z * SubmitQueue.t * list SqeEvent :=
  match attempts with
  | O => (None, q, [])
  | S n =>
      match acquireSlot_attempt env q with
      | (Slot v, _, q', tr) => (Some v, q', tr)
      | (Starved, _, q', tr) => (None, q', tr)
      | (Retry, env', q', tr) =>
          let '(r, q'', tr') := acquireSlot n env' q' in
          (r, q'', tr ++ tr')
      end
  end.

(** ** Errors, the kernel boundary and what a run leaves behind *)

(** Go's [error] values that [ring.go] produces: a [syscall.Errno], or
    [errors.Wrap(cause, message)]. *)
Inductive error : Type :=
| Errno (errno : Z)
| Wrap (cause : error) (message : string).

Definition EINTR : Z := 4.
Definition EBADF : Z := 9.
Definition EINVAL : Z := 22.

(** How a method ends: it returns, it is still spinning when the fuel is
    used up, or it panics on a nil pointer. *)
Inductive outcome (A : Type) : Type :=
| Returns (a : A)
| Spins
| Panics.
Arguments Returns {A} a.
Arguments Spins {A}.
Arguments Panics {A}.

Inductive Syscall : Type :=
| SYS_MUNMAP (addr length : Z)
| SYS_CLOSE (fd : Z)
| SYS_IO_URING_ENTER (fd toSubmit minComplete flags sigset : Z).

(** What a run does, in program order: the system calls with the errno
    each got back, and the two submit-queue methods [Enter] calls. *)
Inductive Event : Type :=
| Called (c : Syscall) (errno : Z)
| SubmitBarrier
| Emptied.

(** The world outside the ring: a kernel that answers each call with an
    errno (0 for success) as a function of everything that happened
    before, and the trace so far. *)
Record World : Type := mkWorld {
  kernel : list Event -> Syscall -> Z;
  trace : list Event
}.

Definition record (e : Event) (w : World) : World :=
  mkWorld (kernel w) (trace w ++ [e]).

(** [syscall.Syscall6(...)]: the errno, and the world with the call
    recorded. *)
Definition Syscall6 (c : Syscall) (w : World) : Z * World :=
  let errno := kernel w (trace w) c in
  (errno, record (Called c errno) w).

(** [syscall.Close(fd)]. *)
Definition syscall_Close (fd : Z) (w : World) : option error * World :=
  let '(errno, w1) := Syscall6 (SYS_CLOSE fd) w in
  (if errno =? 0 then None else Some (Errno errno), w1).

(** Modelled from the spec: the package-level [Enter] is declared outside
    [ring.go]; the spec describes it as the kernel boundary call
    [enter(fd, toSubmit, minComplete, flags, signalMask)] that yields an
    error or succeeds. *)
Definition Enter (fd toSubmit minComplete flags sigset : Z) (w : World)
  : option error * World :=
  let '(errno, w1) :=
    Syscall6 (SYS_IO_URING_ENTER fd toSubmit minComplete flags sigset) w in
  (if errno =? 0 then None else Some (Errno errno), w1).

(** Modelled from the spec: [SubmitQueue.submitBarrier] is declared outside
    [ring.go]; the spec describes it as a memory fence that makes the
    writes to allocated entries visible before the kernel is entered.  In
    a sequentially consistent run a fence changes no field. *)
Definition submitBarrier (q : SubmitQueue.t) (w : World) : SubmitQueue.t * World :=
  (q, record SubmitBarrier w).

(** Modelled from the spec: [SubmitQueue.empty] is declared outside
    [ring.go]; the spec describes it as the transition of the ring state
    back to Empty. *)
Definition empty (q : SubmitQueue.t) (w : World) : SubmitQueue.t * World :=
  (SubmitQueue.set_state RingStateEmpty q, record Emptied w).

(** ** The ring *)

(** Modelled from the spec: the [Params] struct is declared outside
    [ring.go]; the spec lists the requested size, the feature flags and
    the setup flags as separate members.  [Flags] is the member [Close]
    reads ([r.p.Flags]), the setup flags of [io_uring_setup()];
    [Features] is the kernel-reported feature word
    ([io_uring_params->features]). *)
Module Params.
Record t : Type := mk {
  SqEntries : Z;
  Flags : Z;
  Features : Z
}.
(** [Params{}] *)
Definition zero : t := mk 0 0 0.
End Params.

(** The [Ring] struct.  The pointer fields are [None] when nil.  The two
    mutexes are taken and released inside [closeCq] and [closeSq]; a run of
    one goroutine finds them free and leaves them free, so they carry no
    state here.  [sqPool] is not used by [ring.go]. *)
Module Ring.
Record t : Type := mk {
  fd : Z;
  p : option Params.t;
  cq : option CompletionQueue.t;
  sq : option SubmitQueue.t;
  idx : option Z
}.
Definition set_cq (c : option CompletionQueue.t) (r : t) : t :=
  mk (fd r) (p r) c (sq r) (idx r).
Definition set_sq (q : option SubmitQueue.t) (r : t) : t :=
  mk (fd r) (p r) (cq r) q (idx r).
Definition set_idx (i : option Z) (r : t) : t :=
  mk (fd r) (p r) (cq r) (sq r) i.
End Ring.

(** ** Methods of the ring *)

(** [closeCq]: nothing to do when [r.cq] is nil; otherwise munmap the
    completion region, and clear [r.cq] only when the call succeeded. *)
Definition closeCq (r : Ring.t) (w : World) : option error * Ring.t * World :=
  match Ring.cq r with
  | None => (None, r, w)
  | Some c =>
      let '(errno, w1) :=
        Syscall6 (SYS_MUNMAP (CompletionQueue.ptr c) (CompletionQueue.Size c)) w in
      if negb (errno =? 0)
      then (Some (Wrap (Errno errno) "failed to munmap cq ring"), r, w1)
      else (None, Ring.set_cq None r, w1)
  end.

(** [closeSq]: the same for the submission region and [r.sq]. *)
Definition closeSq (r : Ring.t) (w : World) : option error * Ring.t * World :=
  match Ring.sq r with
  | None => (None, r, w)
  | Some q =>
      let '(errno, w1) :=
        Syscall6 (SYS_MUNMAP (SubmitQueue.ptr q) (SubmitQueue.Size q)) w in
      if negb (errno =? 0)
      then (Some (Wrap (Errno errno) "failed to munmap sq ring"), r, w1)
      else (None, Ring.set_sq None r, w1)
  end.

(** [Close]. *)
Definition Close (r : Ring.t) (w : World)
  : outcome (option error) * Ring.t * World :=
  let '(err, r1, w1) := closeSq r w in
  match err with
  | Some e => (Returns (Some e), r1, w1)
  | None =>
      match Ring.p r1 with
      | None => (Panics, r1, w1)
      | Some params =>
          if Z.land (Params.Flags params) FeatSingleMmap =? 0 then
            let '(err2, r2, w2) := closeCq r1 w1 in
            match err2 with
            | Some e => (Returns (Some e), r2, w2)
            | None =>
                let '(err3, w3) := syscall_Close (Ring.fd r2) w2 in
                (Returns err3, r2, w3)
            end
          else
            let '(err3, w3) := syscall_Close (Ring.fd r1) w1 in
            (Returns err3, r1, w3)
      end
  end.

(** The method [Enter] of the ring (the package-level function of the
    same name is [Enter] above).  A nil [r.sq] makes the barrier
    dereference nil. *)
Definition Ring_Enter (r : Ring.t) (fd toSubmit minComplete flags sigset : Z)
  (w : World) : outcome (option error) * Ring.t * World :=
  match Ring.sq r with
  | None => (Panics, r, w)
  | Some q =>
      let '(q1, w1) := submitBarrier q w in
      let '(err, w2) := Enter fd toSubmit minComplete flags sigset w1 in
      match err with
      | Some e => (Returns (Some e), Ring.set_sq (Some q1) r, w2)
      | None =>
          let '(q2, w3) := empty q1 w2 in
          (Returns None, Ring.set_sq (Some q2) r, w3)
      end
  end.

(** [SubmitHead] and [SubmitTail]. *)
Definition SubmitHead (r : Ring.t) : outcome Z :=
  match Ring.sq r with
  | None => Panics
  | Some q => Returns (SubmitQueue.Head q)
  end.

Definition SubmitTail (r : Ring.t) : outcome Z :=
  match Ring.sq r with
  | None => Panics
  | Some q => Returns (SubmitQueue.Tail q)
  end.

(** [Sqe] on the ring, under the interference [env]. *)
Definition Sqe (env : list interference) (r : Ring.t) : outcome Z * Ring.t :=
  match Ring.sq r with
  | None => (Panics, r)
  | Some q =>
      let '(v, q', _) := Sqe_on env q in
      (match v with Some i => Returns i | None => Spins end,
       Ring.set_sq (Some q') r)
  end.

(** [n] calls of [Sqe] one after the other from a single goroutine, each
    given [fuel] atomic operations. *)
Fixpoint Sqe_calls (fuel n : nat) (r : Ring.t) : list (outcome Z) * Ring.t :=
  match n with
  | O => ([], r)
  | S n' =>
      let '(v, r1) := Sqe (repeat quiet fuel) r in
      let '(vs, r2) := Sqe_calls fuel n' r1 in
      (v :: vs, r2)
  end.

(** [Idx]: [atomic.AddUint64(r.idx, 1)]. *)
Definition Idx (r : Ring.t) : outcome Z * Ring.t :=
  match Ring.idx r with
  | None => (Panics, r)
  | Some i =>
      let v := uint64 (i + 1) in
      (Returns v, Ring.set_idx (Some v) r)
  end.

(** Calls of [Idx] by several goroutines.  Each call is one atomic
    operation, so a concurrent run is a sequence of calls; [schedule]
    names the goroutine that makes each one.  The result pairs each
    goroutine with what its call returned. *)
Fixpoint Idx_calls (schedule : list nat) (r : Ring.t)
  : list (nat * outcome Z) * Ring.t :=
  match schedule with
  | [] => ([], r)
  | g :: rest =>
      let '(v, r1) := Idx r in
      let '(vs, r2) := Idx_calls rest r1 in
      ((g, v) :: vs, r2)
  end.

(** ** Construction *)

Section Construction.

(** [Setup] and [MmapRing] are declared outside [ring.go]: the kernel
    handshake that yields the descriptor and fills the parameters, and the
    mapping of the two queues. *)
Variable Setup : Z -> Params.t -> World -> Z * Params.t * option error * World.
Variable MmapRing :
  Z -> Params.t -> World ->
  SubmitQueue.t * CompletionQueue.t * option error * World.

(** [New]. *)
Definition New (size : Z) (w : World) : option Ring.t * option error * World :=
  let '(fd, p, err, w1) := Setup size Params.zero w in
  match err with
  | Some e => (None, Some e, w1)
  | None =>
      let '(sq, cq, err2, w2) := MmapRing fd p w1 in
      match err2 with
      | Some e => (None, Some e, w2)
      | None =>
          (Some (Ring.mk fd (Some p) (Some cq)
                   (Some (SubmitQueue.set_state RingStateEmpty sq)) (Some 0)),
           None, w2)
      end
  end.

End Construction.

(** ** Concrete kernels and rings used in the examples *)

Fixpoint closed_before (fd : Z) (hist : list Event) : bool :=
  match hist with
  | [] => false
  | Called (SYS_CLOSE fd') 0 :: rest => (fd' =? fd) || closed_before fd rest
  | _ :: rest => closed_before fd rest
  end.

(** A kernel in the manner of Linux: munmap fails with EINVAL on an empty
    or misaligned range, close fails with EBADF on a descriptor that was
    closed before, everything else succeeds. *)
Definition linux (hist : list Event) (c : Syscall) : Z :=
  match c with
  | SYS_MUNMAP addr length =>
      if (length =? 0) || negb (addr mod 4096 =? 0) then EINVAL else 0
  | SYS_CLOSE fd => if closed_before fd hist then EBADF else 0
  | SYS_IO_URING_ENTER _ _ _ _ _ => 0
  end.

(** The same kernel, except that munmap of the range at [addr] fails with
    EINVAL. *)
Definition munmap_fails_at (addr : Z) (hist : list Event) (c : Syscall) : Z :=
  match c with
  | SYS_MUNMAP a _ => if a =? addr then EINVAL else linux hist c
  | _ => linux hist c
  end.

(** The same kernel, except that io_uring_enter is interrupted. *)
Definition enter_interrupted (hist : list Event) (c : Syscall) : Z :=
  match c with
  | SYS_IO_URING_ENTER _ _ _ _ _ => EINTR
  | _ => linux hist c
  end.

Definition boot (k : list Event -> Syscall -> Z) : World := mkWorld k [].

(** A ring as [New] builds it: descriptor 3, both queues mapped, the
    identifier counter at 0. *)
Definition fresh_ring (size : Z) (params : Params.t) : Ring.t :=
  Ring.mk 3 (Some params)
    (Some (CompletionQueue.mk (2 * size) 8192))
    (Some (SubmitQueue.mk size 0 0 4096 RingStateEmpty))
    (Some 0).

Definition mock_Setup (size : Z) (p : Params.t) (w : World)
  : Z * Params.t * option error * World :=
  (3, Params.mk size (Params.Flags p) FeatSingleMmap, None, w).

Definition mock_MmapRing (fd : Z) (p : Params.t) (w : World)
  : SubmitQueue.t * CompletionQueue.t * option error * World :=
  (SubmitQueue.mk (Params.SqEntries p) 0 0 4096 RingStateFilling,
   CompletionQueue.mk (2 * Params.SqEntries p) 8192, None, w).

Definition munmap_count (addr : Z) (tr : list Event) : nat :=
  List.length (filter (fun e => match e with
                           | Called (SYS_MUNMAP a _) _ => a =? addr
                           | _ => false
                           end) tr).

(** The values the calls of a schedule returned, in the order of the
    calls. *)
Definition Idx_values (schedule : list nat) (r : Ring.t) : list Z :=
  flat_map (fun o => match snd o with
                     | Returns v => [v]
                     | _ => []
                     end)
           (fst (Idx_calls schedule r)).

(** An interference that leaves the head cell alone (the kernel moving
    the tail, or nobody doing anything). *)
Definition keeps_head (e : interference) : Prop :=
  forall h x, fst (e (h, x)) = h.

Definition moves_tail (x : Z) : interference := fun cells => (fst cells, x).

(** What holds of the queue at each point of [Sqe] while no other party
    writes the head: the head stays below the size except between the
    increment that reaches the size and the swap that resets it. *)
Definition Sqe_inv (N : Z) (pc : SqePc) (q : SubmitQueue.t) : Prop :=
  SubmitQueue.Size q = N /\
  match pc with
  | AtGetIdx => 0 <= SubmitQueue.Head q < N
  | AtWrap v => v = N /\ SubmitQueue.Head q = N
  | AtTail v => 1 <= v <= N /\ 0 <= SubmitQueue.Head q < N
  | Returned v => 1 <= v <= N /\ 0 <= SubmitQueue.Head q < N
  end.

(** The continuation of an attempt once [acquireSlot_attempt] or
    [acquireSlot_read_tail] has produced its outcome. *)
Definition acquireSlot_continue (n : nat)
  (a : attempt_outcome * list interference * SubmitQueue.t * list SqeEvent)
  : option Z * SubmitQueue.t * list SqeEvent :=
  match a with
  | (Slot v, _, q', tr) => (Some v, q', tr)
  | (Starved, _, q', tr) => (None, q', tr)
  | (Retry, env', q', tr) =>
      let '(r, q'', tr') := acquireSlot n env' q' in
      (r, q'', tr ++ tr')
  end.


(** Another goroutine's [AddUint32] on the head, seen as interference. *)
Definition another_AddUint32 : interference :=
  fun cells => (fst cells + 1, snd cells).

(** The ring of eight entries used in the examples. *)
Definition ring8 : Ring.t := fresh_ring 8 (Params.mk 8 0 FeatSingleMmap).

(** A ring on a kernel that does not report the single-mmap feature and
    was set up without flags. *)
Definition ring_two_mappings : Ring.t := fresh_ring 8 (Params.mk 8 0 0).

(** The submission unmap of [r] fails in the world [w]. *)
Definition sq_unmap_fails (r : Ring.t) (w : World) : Prop :=
  exists q,
    Ring.sq r = Some q /\
    kernel w (trace w) (SYS_MUNMAP (SubmitQueue.ptr q) (SubmitQueue.Size q)) <> 0.

(** The trace [tr] holds an unmap of the completion region of [r]. *)
Definition cq_unmap_attempted (r : Ring.t) (tr : list Event) : Prop :=
  exists c errno,
    Ring.cq r = Some c /\
    In (Called (SYS_MUNMAP (CompletionQueue.ptr c) (CompletionQueue.Size c)) errno) tr.

(** A kernel that refuses every munmap with EINVAL. *)
Definition munmap_denied (hist : list Event) (c : Syscall) : Z :=
  match c with
  | SYS_MUNMAP _ _ => EINVAL
  | _ => linux hist c
  end.

(** Two goroutines inside [Sqe] on the same queue.  [schedule] names the
    goroutine whose next atomic operation runs; the queue is shared. *)
Inductive goroutine : Type :=
| GoA
| GoB.

Fixpoint Sqe_pair (schedule : list goroutine) (q : SubmitQueue.t)
  (pcA pcB : SqePc) : SqePc * SqePc * SubmitQueue.t :=
  match schedule with
  | [] => (pcA, pcB, q)
  | GoA :: rest =>
      let '(q1, pc1, _) := Sqe_step q pcA in Sqe_pair rest q1 pc1 pcB
  | GoB :: rest =>
      let '(q1, pc1, _) := Sqe_step q pcB in Sqe_pair rest q1 pcA pc1
  end.

(** The errno at the root of an error. *)
Fixpoint cause (e : error) : Z :=
  match e with
  | Errno errno => errno
  | Wrap c _ => cause c
  end.

(** A kernel that accepts every call. *)
Definition always_ok (hist : list Event) (c : Syscall) : Z := 0.

Definition is_munmap_ok (e : Event) : Prop :=
  match e with
  | Called (SYS_MUNMAP _ _) 0 => True
  | _ => False
  end.

(** The order [Close] keeps among its calls, read as a property of the
    events it adds: unmaps that succeeded, then at most one last event,
    which is a failed unmap or the close of the descriptor [fd]. *)
Fixpoint teardown_order (fd : Z) (evs : list Event) : Prop :=
  match evs with
  | [] => True
  | Called (SYS_MUNMAP _ _) errno :: rest =>
      if errno =? 0 then teardown_order fd rest else rest = []
  | Called (SYS_CLOSE f) _ :: rest => f = fd /\ rest = []
  | _ => False
  end.

(** A [MmapRing] that fails, for the examples. *)
Definition failing_MmapRing (fd : Z) (p : Params.t) (w : World)
  : SubmitQueue.t * CompletionQueue.t * option error * World :=
  (SubmitQueue.mk 0 0 0 0 RingStateEmpty, CompletionQueue.mk 0 0,
   Some (Wrap (Errno 12) "mmap"), w).

(** ** The constant block as Go evaluates it

    The second [const ( ... )] block of the constant table, one entry per
    constant specification in the order of the source.  An entry without
    expression repeats the expression of the entry before it, and [iota]
    is the index of the entry in the block, counted from 0. *)
Inductive ConstExpr : Type :=
| Lit (z : Z)
| Shl (x n : Z)
| Iota.

Definition const_value (e : ConstExpr) (iota : Z) : Z :=
  match e with
  | Lit z => z
  | Shl x n => Z.shiftl x n
  | Iota => iota
  end.

Fixpoint const_block (specs : list (string * option ConstExpr)) (iota : Z)
  (previous : option ConstExpr) : list (string * Z) :=
  match specs with
  | [] => []
  | (name, e) :: rest =>
      let e' := match e with Some _ => e | None => previous end in
      match e' with
      | Some x => (name, const_value x iota) :: const_block rest (iota + 1) e'
      | None => const_block rest (iota + 1) e'
      end
  end.





(** * Theorems *)

(** ** Constants *)

(** C9: the mmap offsets are 0 for the submission ring, 0x8000000 (2^27)
    for the completion ring and 0x10000000 (2^28) for the submission
    entries, and the six register opcodes are 0, 1, 2, 3, 4, 5 in the
    order register/unregister buffers, files, eventfd. *)
Theorem layout_constants_match_kernel_abi :
  SqRingOffset = 0 /\
  CqRingOffset = 134217728 /\ CqRingOffset = 2 ^ 27 /\
  SqeSOffset = 268435456 /\ SqeSOffset = 2 ^ 28 /\
  register_opcodes = map Z.of_nat (seq 0 6) /\
  (RegisterBuffers, UnregisterBuffers) = (0, 1) /\
  (RegisterFiles, UnregisterFiles) = (2, 3) /\
  (RegisterEventfd, UnregisteREventfd) = (4, 5).
Proof. repeat split. Qed.

(** ** The identifier counter *)

Lemma uint64_small (z : Z) : 0 <= z < uint64_modulus -> uint64 z = z.
Proof. intros H. unfold uint64. now apply Z.mod_small. Qed.

Lemma uint32_small (z : Z) : 0 <= z < uint32_modulus -> uint32 z = z.
Proof. intros H. unfold uint32. now apply Z.mod_small. Qed.

Lemma Idx_calls_from (schedule : list nat) :
  forall (r : Ring.t) (i : Z),
    Ring.idx r = Some i ->
    0 <= i ->
    i + Z.of_nat (length schedule) < uint64_modulus ->
    Idx_values schedule r
    = map (fun k => i + Z.of_nat k) (seq 1 (length schedule)) /\
    Ring.idx (snd (Idx_calls schedule r)) = Some (i + Z.of_nat (length schedule)).
Proof.
  unfold Idx_values.
  induction schedule as [|g rest IH]; intros r i Hi H0 Hlt.
  - cbn. split; [reflexivity|]. rewrite Hi. f_equal. lia.
  - cbn [Idx_calls List.length]. unfold Idx. rewrite Hi.
    cbn [List.length] in Hlt.
    rewrite uint64_small by lia.
    specialize (IH (Ring.set_idx (Some (i + 1)) r) (i + 1) eq_refl).
    destruct (Idx_calls rest (Ring.set_idx (Some (i + 1)) r)) as [vs r2] eqn:E.
    cbn [fst snd flat_map app] in *.
    destruct IH as [IHv IHi]; [lia | lia |].
    split.
    + rewrite IHv. cbn [seq map]. f_equal; try lia.
      rewrite <- (seq_shift (List.length rest) 1), map_map.
      apply map_ext. intros k. lia.
    + rewrite IHi. f_equal. lia.
Qed.

Lemma offsets_sorted (i : Z) (n : nat) :
  forall s, StronglySorted Z.lt (map (fun k => i + Z.of_nat k) (seq s n)).
Proof.
  induction n as [|n IH]; intros s; cbn [seq map]; constructor.
  - apply IH.
  - apply Forall_forall. intros x Hx.
    apply in_map_iff in Hx. destruct Hx as [k [<- Hk]].
    apply in_seq in Hk. lia.
Qed.

Lemma offsets_NoDup (i : Z) (s n : nat) :
  NoDup (map (fun k => i + Z.of_nat k) (seq s n)).
Proof.
  apply Injective_map_NoDup; [|apply seq_NoDup].
  intros a b H. lia.
Qed.

(** C8: a ring that [New] returns has its identifier counter at zero, and
    however many goroutines call [Idx], as long as fewer than 2^64 calls
    are made every call returns, the k-th call made returns k, so the
    values are strictly increasing and never repeat. *)
Theorem Idx_strictly_increasing
  (Setup : Z -> Params.t -> World -> Z * Params.t * option error * World)
  (MmapRing : Z -> Params.t -> World ->
              SubmitQueue.t * CompletionQueue.t * option error * World)
  (size : Z) (w w' : World) (r : Ring.t) (schedule : list nat) :
  New Setup MmapRing size w = (Some r, None, w') ->
  Z.of_nat (length schedule) < uint64_modulus ->
  Ring.idx r = Some 0 /\
  Idx_values schedule r = map Z.of_nat (seq 1 (length schedule)) /\
  length (Idx_values schedule r) = length schedule /\
  StronglySorted Z.lt (Idx_values schedule r) /\
  NoDup (Idx_values schedule r).
Proof.
  intros HNew Hlt.
  assert (Hidx : Ring.idx r = Some 0).
  { unfold New in HNew.
    destruct (Setup size Params.zero w) as [[[fd p] [e|]] w1]; [discriminate|].
    destruct (MmapRing fd p w1) as [[[sq cq] [e|]] w2]; [discriminate|].
    injection HNew as <- _. reflexivity. }
  destruct (Idx_calls_from schedule r 0 Hidx) as [Hv _]; [lia | lia |].
  split; [exact Hidx|].
  rewrite Hv.
  split; [apply map_ext; intros; lia|].
  split; [now rewrite length_map, length_seq|].
  split; [apply offsets_sorted | apply offsets_NoDup].
Qed.

Lemma Idx_strictly_increasing_witness :
  Idx_values [0%nat; 1%nat; 0%nat; 2%nat; 1%nat]
    (fresh_ring 8 (Params.mk 8 0 FeatSingleMmap))
  = [1; 2; 3; 4; 5].
Proof.
  refine (let H := Idx_strictly_increasing mock_Setup mock_MmapRing 8
                     (boot linux) (boot linux)
                     (fresh_ring 8 (Params.mk 8 0 FeatSingleMmap))
                     [0%nat; 1%nat; 0%nat; 2%nat; 1%nat] eq_refl _ in _).
  - exact (proj1 (proj2 H)).
  Unshelve. reflexivity.
Defined.

(** At the 64-bit boundary the counter wraps: the call that follows
    2^64 - 1 returns 0. *)
Example Idx_wraps :
  fst (Idx (Ring.set_idx (Some (uint64_modulus - 1))
              (fresh_ring 8 (Params.mk 8 0 0))))
  = Returns 0.
Proof. reflexivity. Qed.

(** ** The slot allocator *)

Lemma Sqe_run_Returned (env : list interference) (q : SubmitQueue.t) (v : Z) :
  Sqe_run env q (Returned v) = (Returned v, q, []).
Proof. destruct env; reflexivity. Qed.

Lemma read_tail_agrees (n : nat) (v : Z) (env : list interference)
  (q : SubmitQueue.t) (done : list SqeEvent) :
  (forall env' q', (length env' < length env)%nat ->
                   Sqe_on env' q' = acquireSlot n env' q') ->
  (let '(pc, q', tr) := Sqe_run env q (AtTail v) in
   (returned pc, q', done ++ tr))
  = acquireSlot_continue n (acquireSlot_read_tail v env q done).
Proof.
  intros IH. destruct env as [|e env']; cbn [Sqe_run acquireSlot_read_tail acquireSlot_continue].
  - cbn. now rewrite app_nil_r.
  - unfold Sqe_step, LoadUint32_Tail.
    destruct (SubmitQueue.Tail (interfere e q) =? v) eqn:Et; cbn [negb acquireSlot_continue].
    + rewrite <- (IH env' (interfere e q)) by (cbn; lia).
      unfold Sqe_on.
      destruct (Sqe_run env' (interfere e q) AtGetIdx) as [[pc q'] tr].
      cbn. now rewrite <- app_assoc.
    + rewrite Sqe_run_Returned. cbn. reflexivity.
Qed.

(** C2: under every interference, [Sqe] does what the allocator's four
    steps say: it increments the head to get the candidate [v]; when [v]
    is the ring size it swaps the head from [v] to 0 and on a failed swap
    yields and starts again from the increment; it then loads the tail and
    returns [v] when the tail differs from [v]; when the tail equals [v]
    it yields and starts again from the increment.  The index returned,
    the queue left behind and the sequence of operations are the same. *)
Theorem Sqe_follows_allocator_steps (env : list interference) (q : SubmitQueue.t) :
  Sqe_on env q = acquireSlot (length env) env q.
Proof.
  assert (Hlen : (length env <= length env)%nat) by lia.
  revert Hlen. generalize (length env) at 2 3 as n. intros n. revert env q.
  induction n as [|n IH]; intros env q Hlen.
  - destruct env; [reflexivity | cbn in Hlen; lia].
  - destruct env as [|e1 env1]; [reflexivity|].
    cbn [List.length] in Hlen.
    change (acquireSlot (S n) (e1 :: env1) q)
      with (acquireSlot_continue n (acquireSlot_attempt (e1 :: env1) q)).
    unfold Sqe_on. cbn [Sqe_run acquireSlot_attempt].
    unfold Sqe_step, AddUint32_Head.
    set (q1 := interfere e1 q).
    set (v := uint32 (SubmitQueue.Head q1 + 1)).
    change (SubmitQueue.Size (SubmitQueue.set_Head v q1)) with (SubmitQueue.Size q1).
    destruct (v =? SubmitQueue.Size q1) eqn:Ev.
    + destruct env1 as [|e2 env2]; [reflexivity|].
      cbn [Sqe_run]. unfold Sqe_step, CompareAndSwapUint32_Head.
      set (q3 := interfere e2 (SubmitQueue.set_Head v q1)).
      destruct (SubmitQueue.Head q3 =? v) eqn:Eh; cbn [negb].
      * rewrite <- (read_tail_agrees n v env2 (SubmitQueue.set_Head 0 q3)
                     [EvAddHead v; EvCasHead v 0 true]).
        -- destruct (Sqe_run env2 (SubmitQueue.set_Head 0 q3) (AtTail v)) as [[pc q'] tr].
           reflexivity.
        -- intros env' q' Hl. apply IH. cbn [List.length] in Hlen. lia.
      * cbn [acquireSlot_continue].
        rewrite <- (IH env2 q3) by (cbn [List.length] in Hlen; lia).
        unfold Sqe_on.
        destruct (Sqe_run env2 q3 AtGetIdx) as [[pc q'] tr]. reflexivity.
    + rewrite <- (read_tail_agrees n v env1 (SubmitQueue.set_Head v q1) [EvAddHead v]).
      * destruct (Sqe_run env1 (SubmitQueue.set_Head v q1) (AtTail v)) as [[pc q'] tr].
        reflexivity.
      * intros env' q' Hl. apply IH. lia.
Qed.

Lemma interfere_quiet (q : SubmitQueue.t) :
  0 <= SubmitQueue.Head q < uint32_modulus ->
  0 <= SubmitQueue.Tail q < uint32_modulus ->
  interfere quiet q = q.
Proof.
  intros Hh Ht. destruct q as [sz h x pt st]. cbn in *.
  unfold interfere, quiet, SubmitQueue.set_Tail, SubmitQueue.set_Head. cbn.
  now rewrite !uint32_small.
Qed.

Lemma interfere_keeps_head (e : interference) (q : SubmitQueue.t) :
  keeps_head e ->
  0 <= SubmitQueue.Head q < uint32_modulus ->
  SubmitQueue.Head (interfere e q) = SubmitQueue.Head q /\
  SubmitQueue.Size (interfere e q) = SubmitQueue.Size q.
Proof.
  intros He Hh. unfold interfere.
  specialize (He (SubmitQueue.Head q) (SubmitQueue.Tail q)).
  destruct (e (SubmitQueue.Head q, SubmitQueue.Tail q)) as [h x].
  cbn in *. subst h. now rewrite uint32_small.
Qed.

Lemma Sqe_step_inv (N : Z) (e : interference) (pc : SqePc) (q : SubmitQueue.t) :
  1 <= N < uint32_modulus ->
  keeps_head e ->
  Sqe_inv N pc q ->
  Sqe_inv N (snd (fst (Sqe_step (interfere e q) pc)))
            (fst (fst (Sqe_step (interfere e q) pc))).
Proof.
  intros HN He [Hsz Hpc].
  assert (Hh : 0 <= SubmitQueue.Head q < uint32_modulus)
    by (destruct pc; lia).
  destruct (interfere_keeps_head e q He Hh) as [Eh Es].
  unfold Sqe_inv.
  destruct pc as [|v|v|v]; cbn [Sqe_step].
  - unfold AddUint32_Head. rewrite Eh, Es, Hsz.
    rewrite uint32_small by lia.
    destruct (SubmitQueue.Head q + 1 =? N) eqn:E; cbn; rewrite Es;
      [apply Z.eqb_eq in E | apply Z.eqb_neq in E]; lia.
  - unfold CompareAndSwapUint32_Head. rewrite Eh.
    destruct Hpc as [-> Hhd]. rewrite Hhd, Z.eqb_refl. cbn. rewrite Es. lia.
  - unfold LoadUint32_Tail.
    destruct (SubmitQueue.Tail (interfere e q) =? v); cbn; rewrite Eh, Es; lia.
  - cbn. rewrite Eh, Es. lia.
Qed.

Lemma Sqe_run_inv (N : Z) (env : list interference) :
  1 <= N < uint32_modulus ->
  Forall keeps_head env ->
  forall (pc : SqePc) (q : SubmitQueue.t),
    Sqe_inv N pc q ->
    Sqe_inv N (fst (fst (Sqe_run env q pc))) (snd (fst (Sqe_run env q pc))).
Proof.
  intros HN Henv. induction Henv as [|e env He Henv IH]; intros pc q Hinv.
  - destruct pc; exact Hinv.
  - destruct pc as [|v|v|v]; try exact Hinv;
      cbn [Sqe_run];
      match goal with
      | |- context [Sqe_step (interfere e q) ?pc0] =>
          pose proof (Sqe_step_inv N e pc0 q HN He Hinv) as Hs;
          destruct (Sqe_step (interfere e q) pc0) as [[q1 pc1] ev1]
      end;
      cbn [fst snd] in Hs; specialize (IH pc1 q1 Hs);
      destruct (Sqe_run env q1 pc1) as [[pc2 q2] ev2]; exact IH.
Qed.

(** While nobody else writes the head, a call of [Sqe] on a queue of size
    [N] whose head is below [N] returns, if it returns, a value between 1
    and [N]. *)
Lemma Sqe_on_range (N : Z) (env : list interference) (q : SubmitQueue.t) (v : Z) :
  1 <= N < uint32_modulus ->
  Forall keeps_head env ->
  SubmitQueue.Size q = N ->
  0 <= SubmitQueue.Head q < N ->
  fst (fst (Sqe_on env q)) = Some v ->
  1 <= v <= N.
Proof.
  intros HN Henv Hsz Hh Hv.
  pose proof (Sqe_run_inv N env HN Henv AtGetIdx q (conj Hsz Hh)) as H.
  unfold Sqe_on in Hv.
  destruct (Sqe_run env q AtGetIdx) as [[pc q'] tr].
  cbn in *. destruct pc; try discriminate.
  injection Hv as ->. destruct H as [_ [H _]]. exact H.
Qed.


(** The failed swap is a live branch: when another goroutine increments
    the head between this one's increment and its swap, the swap fails,
    the goroutine yields, and its next candidate is past the ring size. *)
Example Sqe_wrap_race :
  Sqe_on [quiet; another_AddUint32; quiet; quiet]
         (SubmitQueue.mk 2 1 0 4096 RingStateEmpty)
  = (Some 4, SubmitQueue.mk 2 4 0 4096 RingStateEmpty,
     [EvAddHead 2; EvCasHead 2 0 false; EvGosched;
      EvAddHead 4; EvLoadTail 0; EvReturn 4]).
Proof. reflexivity. Qed.

(** The saturated branch: a candidate equal to the tail is skipped. *)
Example Sqe_skips_tail :
  Sqe_on (repeat quiet 5) (SubmitQueue.mk 2 0 1 4096 RingStateEmpty)
  = (Some 2, SubmitQueue.mk 2 0 1 4096 RingStateEmpty,
     [EvAddHead 1; EvLoadTail 1; EvGosched;
      EvAddHead 2; EvCasHead 2 0 true; EvLoadTail 1; EvReturn 2]).
Proof. reflexivity. Qed.

(** With one entry and the tail at 1 the only candidate is always taken:
    the call is still spinning after any number of operations tried. *)
Example Sqe_spins :
  fst (Sqe (repeat quiet 300)
         (Ring.mk 3 None None (Some (SubmitQueue.mk 1 0 1 4096 RingStateEmpty)) None))
  = Spins.
Proof. vm_compute. reflexivity. Qed.



Lemma moves_tail_keeps_head (ts : list Z) : Forall keeps_head (map moves_tail ts).
Proof.
  apply Forall_forall. intros e He.
  apply in_map_iff in He. destruct He as [x [<- _]].
  intros h y. reflexivity.
Qed.





(** C1: what the code does on a ring of size 8.  The eight calls return
    1, 2, ..., 8 (not 0, ..., 7): the first index is 1 and the eighth is
    the ring size, one past the last entry.  The ninth call returns 1
    without waiting, and whatever the kernel does to the tail in the
    meantime no later call returns 0. *)
Theorem Sqe_ring8_returns_1_to_8 :
  Sqe_calls 3 8 ring8
  = ([Returns 1; Returns 2; Returns 3; Returns 4;
      Returns 5; Returns 6; Returns 7; Returns 8], ring8) /\
  fst (Sqe (repeat quiet 3) (snd (Sqe_calls 3 8 ring8))) = Returns 1 /\
  forall ts : list Z,
    fst (Sqe (map moves_tail ts) (snd (Sqe_calls 3 8 ring8))) <> Returns 0.
Proof.
  split; [reflexivity|]. split; [reflexivity|].
  intros ts.
  change (snd (Sqe_calls 3 8 ring8)) with ring8.
  unfold Sqe, ring8, fresh_ring. cbn [Ring.sq].
  pose proof (Sqe_on_range 8 (map moves_tail ts)
                (SubmitQueue.mk 8 0 0 4096 RingStateEmpty) 0) as H.
  destruct (Sqe_on (map moves_tail ts) (SubmitQueue.mk 8 0 0 4096 RingStateEmpty))
    as [[[v|] q'] tr]; cbn [fst] in *; [|discriminate].
  intros Hv. injection Hv as ->.
  assert (1 <= 0 <= 8); [|lia].
  apply H; try reflexivity.
  - unfold uint32_modulus. lia.
  - apply moves_tail_keeps_head.
  - cbn. lia.
Qed.

(** ** Entering the kernel *)

(** C3: on a ring whose submit queue is mapped, [Enter] applies the submit
    barrier, then makes the kernel enter call, in this order.  When the
    call succeeds the ring state becomes Empty; when it fails, the error
    of the boundary call is what [Enter] returns, nothing is emptied and
    the ring is exactly as it was. *)
Theorem Enter_barrier_then_kernel (r : Ring.t) (q : SubmitQueue.t) (w : World)
  (fd toSubmit minComplete flags sigset : Z) :
  Ring.sq r = Some q ->
  let call := SYS_IO_URING_ENTER fd toSubmit minComplete flags sigset in
  let errno := kernel w (trace w ++ [SubmitBarrier]) call in
  fst (fst (Ring_Enter r fd toSubmit minComplete flags sigset w))
  = Returns (fst (Enter fd toSubmit minComplete flags sigset (record SubmitBarrier w))) /\
  (errno = 0 ->
   Ring_Enter r fd toSubmit minComplete flags sigset w
   = (Returns None,
      Ring.set_sq (Some (SubmitQueue.set_state RingStateEmpty q)) r,
      mkWorld (kernel w) (trace w ++ [SubmitBarrier; Called call 0; Emptied]))) /\
  (errno <> 0 ->
   Ring_Enter r fd toSubmit minComplete flags sigset w
   = (Returns (Some (Errno errno)), r,
      mkWorld (kernel w) (trace w ++ [SubmitBarrier; Called call errno]))).
Proof.
  intros Hsq call errno.
  unfold Ring_Enter. rewrite Hsq.
  unfold submitBarrier, Enter, Syscall6, empty, record. cbn [kernel trace].
  fold call. fold errno.
  destruct (errno =? 0) eqn:E.
  - apply Z.eqb_eq in E. split; [reflexivity|]. split; [|lia].
    intros _. rewrite E, <- !app_assoc. reflexivity.
  - apply Z.eqb_neq in E. split; [reflexivity|]. split; [lia|].
    intros _. rewrite <- app_assoc.
    destruct r as [f p c s i]. cbn in Hsq. subst s. reflexivity.
Qed.

Lemma Enter_barrier_then_kernel_witness :
  Ring_Enter ring8 3 1 0 0 0 (boot enter_interrupted)
  = (Returns (Some (Errno EINTR)), ring8,
     mkWorld enter_interrupted
       [SubmitBarrier; Called (SYS_IO_URING_ENTER 3 1 0 0 0) EINTR]) /\
  Ring_Enter (Ring.set_sq (Some (SubmitQueue.mk 8 3 0 4096 RingStateFilling)) ring8)
             3 1 0 0 0 (boot linux)
  = (Returns None,
     Ring.set_sq (Some (SubmitQueue.mk 8 3 0 4096 RingStateEmpty)) ring8,
     mkWorld linux
       [SubmitBarrier; Called (SYS_IO_URING_ENTER 3 1 0 0 0) 0; Emptied]).
Proof.
  split.
  - refine (proj2 (proj2 (Enter_barrier_then_kernel ring8
                            (SubmitQueue.mk 8 0 0 4096 RingStateEmpty)
                            (boot enter_interrupted) 3 1 0 0 0 eq_refl)) _).
    discriminate.
  - exact (proj1 (proj2 (Enter_barrier_then_kernel
                           (Ring.set_sq (Some (SubmitQueue.mk 8 3 0 4096 RingStateFilling)) ring8)
                           (SubmitQueue.mk 8 3 0 4096 RingStateFilling)
                           (boot linux) 3 1 0 0 0 eq_refl)) eq_refl).
Defined.

(** ** Teardown *)

Lemma closeSq_failed (r : Ring.t) (q : SubmitQueue.t) (w : World) (errno : Z) :
  Ring.sq r = Some q ->
  kernel w (trace w) (SYS_MUNMAP (SubmitQueue.ptr q) (SubmitQueue.Size q)) = errno ->
  errno <> 0 ->
  closeSq r w
  = (Some (Wrap (Errno errno) "failed to munmap sq ring"), r,
     record (Called (SYS_MUNMAP (SubmitQueue.ptr q) (SubmitQueue.Size q)) errno) w).
Proof.
  intros Hsq Hk Hne. unfold closeSq, Syscall6. rewrite Hsq, Hk.
  apply Z.eqb_neq in Hne. rewrite Hne. reflexivity.
Qed.


(** C6, as the code has it: when the unmap of the submission region
    fails, [Close] returns that error, wrapped, at once.  The only call
    made is the failed unmap: the completion region is not unmapped, the
    descriptor is not closed, and the ring is unchanged. *)
Theorem Close_stops_at_failed_sq_unmap (r : Ring.t) (q : SubmitQueue.t)
  (w : World) (errno : Z) :
  Ring.sq r = Some q ->
  kernel w (trace w) (SYS_MUNMAP (SubmitQueue.ptr q) (SubmitQueue.Size q)) = errno ->
  errno <> 0 ->
  Close r w
  = (Returns (Some (Wrap (Errno errno) "failed to munmap sq ring")), r,
     mkWorld (kernel w)
       (trace w ++ [Called (SYS_MUNMAP (SubmitQueue.ptr q) (SubmitQueue.Size q)) errno])).
Proof.
  intros Hsq Hk Hne. unfold Close.
  rewrite (closeSq_failed r q w errno Hsq Hk Hne). reflexivity.
Qed.

Lemma Close_stops_at_failed_sq_unmap_witness :
  Close ring_two_mappings (boot (munmap_fails_at 4096))
  = (Returns (Some (Wrap (Errno EINVAL) "failed to munmap sq ring")),
     ring_two_mappings,
     mkWorld (munmap_fails_at 4096) [Called (SYS_MUNMAP 4096 8) EINVAL]).
Proof.
  refine (Close_stops_at_failed_sq_unmap ring_two_mappings
            (SubmitQueue.mk 8 0 0 4096 RingStateEmpty)
            (boot (munmap_fails_at 4096)) EINVAL eq_refl eq_refl _).
  discriminate.
Defined.

(** C6, as stated, fails: the ring has two separate mappings, the unmap
    of the submission region fails, and [Close] never attempts the unmap
    of the completion region. *)
Lemma Close_failed_sq_unmap_skips_cq :
  sq_unmap_fails ring_two_mappings (boot (munmap_fails_at 4096)) /\
  Z.land (Params.Flags (Params.mk 8 0 0)) FeatSingleMmap = 0 /\
  ~ cq_unmap_attempted ring_two_mappings
      (trace (snd (Close ring_two_mappings (boot (munmap_fails_at 4096))))) /\
  munmap_count 8192
    (trace (snd (Close ring_two_mappings (boot (munmap_fails_at 4096))))) = 0%nat.
Proof.
  split; [|split; [reflexivity|split; [|reflexivity]]].
  - exists (SubmitQueue.mk 8 0 0 4096 RingStateEmpty).
    split; [reflexivity | discriminate].
  - intros [c [errno [Hc Hin]]].
    injection Hc as <-. cbn in Hin.
    destruct Hin as [Hin|[]]. discriminate.
Qed.


Lemma closeSq_None (r r0 : Ring.t) (w w0 : World) :
  closeSq r w = (None, r0, w0) ->
  Ring.sq r0 = None /\ Ring.fd r0 = Ring.fd r /\
  Ring.p r0 = Ring.p r /\ Ring.cq r0 = Ring.cq r.
Proof.
  unfold closeSq. destruct (Ring.sq r) as [q|] eqn:Hsq.
  - destruct (Syscall6 _ w) as [errno w1].
    destruct (negb (errno =? 0)); [discriminate|].
    intros H. injection H as <- _. now destruct r.
  - intros H. injection H as <- _. now rewrite Hsq.
Qed.

Lemma closeCq_None (r r0 : Ring.t) (w w0 : World) :
  closeCq r w = (None, r0, w0) ->
  Ring.cq r0 = None /\ Ring.fd r0 = Ring.fd r /\
  Ring.p r0 = Ring.p r /\ Ring.sq r0 = Ring.sq r.
Proof.
  unfold closeCq. destruct (Ring.cq r) as [c|] eqn:Hcq.
  - destruct (Syscall6 _ w) as [errno w1].
    destruct (negb (errno =? 0)); [discriminate|].
    intros H. injection H as <- _. now destruct r.
  - intros H. injection H as <- _. now rewrite Hcq.
Qed.

Lemma closeSq_released (r : Ring.t) (w : World) :
  Ring.sq r = None -> closeSq r w = (None, r, w).
Proof. intros H. unfold closeSq. now rewrite H. Qed.

Lemma closeCq_released (r : Ring.t) (w : World) :
  Ring.cq r = None -> closeCq r w = (None, r, w).
Proof. intros H. unfold closeCq. now rewrite H. Qed.

Ltac teardown_cases :=
  repeat match goal with
         | |- context [negb (?x =? 0)] =>
             let E := fresh "E" in
             destruct (x =? 0) eqn:E; cbn [negb]
         | |- context [if ?x =? 0 then _ else _] =>
             let E := fresh "E" in
             destruct (x =? 0) eqn:E
         | _ => progress cbn [Ring.sq Ring.cq Ring.p Ring.fd Ring.set_sq Ring.set_cq
                              kernel trace fst snd]
         end.





(** A second [Close] after a first one that succeeded, on any kernel: it
    does not panic and unmaps nothing, but it closes the descriptor again
    and returns what that call yields. *)
Lemma Close_again (r r1 : Ring.t) (w w1 : World) :
  Close r w = (Returns None, r1, w1) ->
  Close r1 w1
  = (Returns (if kernel w1 (trace w1) (SYS_CLOSE (Ring.fd r)) =? 0
              then None
              else Some (Errno (kernel w1 (trace w1) (SYS_CLOSE (Ring.fd r))))),
     r1,
     record (Called (SYS_CLOSE (Ring.fd r))
               (kernel w1 (trace w1) (SYS_CLOSE (Ring.fd r)))) w1).
Proof.
  intros H. unfold Close in H.
  destruct (closeSq r w) as [[[e|] r0] w0] eqn:Esq; [discriminate|].
  apply closeSq_None in Esq. destruct Esq as (Hs & Hf & Hp & Hc).
  destruct (Ring.p r0) as [params|] eqn:Ep; [|discriminate].
  destruct (Z.land (Params.Flags params) FeatSingleMmap =? 0) eqn:Efl.
  - destruct (closeCq r0 w0) as [[[e|] r2] w2] eqn:Ecq; [discriminate|].
    apply closeCq_None in Ecq. destruct Ecq as (Hc2 & Hf2 & Hp2 & Hs2).
    destruct (syscall_Close (Ring.fd r2) w2) as [err3 w3].
    injection H as _ <- <-.
    unfold Close.
    rewrite closeSq_released by congruence.
    rewrite Hp2, Ep, Efl.
    rewrite closeCq_released by assumption.
    unfold syscall_Close, Syscall6. rewrite Hf2, Hf. reflexivity.
  - destruct (syscall_Close (Ring.fd r0) w0) as [err3 w3].
    injection H as _ <- <-.
    unfold Close.
    rewrite closeSq_released by assumption.
    rewrite Ep, Efl.
    unfold syscall_Close, Syscall6. rewrite Hf. reflexivity.
Qed.

(** C5: what the code does when [Close] is called twice on a Linux-like
    kernel.  The first call unmaps both regions and closes descriptor 3.
    The second call does not panic and unmaps nothing, but it is not a
    no-op: it calls close on descriptor 3 again and returns the kernel's
    EBADF. *)
Theorem Close_twice_closes_descriptor_again :
  Close ring_two_mappings (boot linux)
  = (Returns None,
     Ring.set_cq None (Ring.set_sq None ring_two_mappings),
     mkWorld linux [Called (SYS_MUNMAP 4096 8) 0; Called (SYS_MUNMAP 8192 16) 0;
                    Called (SYS_CLOSE 3) 0]) /\
  Close (snd (fst (Close ring_two_mappings (boot linux))))
        (snd (Close ring_two_mappings (boot linux)))
  = (Returns (Some (Errno EBADF)),
     Ring.set_cq None (Ring.set_sq None ring_two_mappings),
     mkWorld linux [Called (SYS_MUNMAP 4096 8) 0; Called (SYS_MUNMAP 8192 16) 0;
                    Called (SYS_CLOSE 3) 0; Called (SYS_CLOSE 3) EBADF]).
Proof.
  assert (H1 : Close ring_two_mappings (boot linux)
               = (Returns None,
                  Ring.set_cq None (Ring.set_sq None ring_two_mappings),
                  mkWorld linux [Called (SYS_MUNMAP 4096 8) 0;
                                 Called (SYS_MUNMAP 8192 16) 0;
                                 Called (SYS_CLOSE 3) 0])) by reflexivity.
  split; [exact H1|].
  rewrite H1. cbn [fst snd].
  rewrite (Close_again _ _ _ _ H1). reflexivity.
Qed.

Lemma Close_ignores_Features (size sqEntries flags f1 f2 : Z) (w : World) :
  fst (fst (Close (fresh_ring size (Params.mk sqEntries flags f1)) w))
  = fst (fst (Close (fresh_ring size (Params.mk sqEntries flags f2)) w)) /\
  trace (snd (Close (fresh_ring size (Params.mk sqEntries flags f1)) w))
  = trace (snd (Close (fresh_ring size (Params.mk sqEntries flags f2)) w)).
Proof.
  unfold Close, closeSq, closeCq, syscall_Close, Syscall6, fresh_ring.
  cbn [Ring.sq Ring.cq Ring.p Ring.fd Ring.set_sq Ring.set_cq Params.Flags
       SubmitQueue.ptr SubmitQueue.Size CompletionQueue.ptr CompletionQueue.Size].
  destruct (negb (kernel w (trace w) (SYS_MUNMAP 4096 size) =? 0));
    [split; reflexivity|].
  cbn [Ring.sq Ring.cq Ring.p Ring.fd Ring.set_sq Ring.set_cq Params.Flags].
  destruct (Z.land flags FeatSingleMmap =? 0); [|split; reflexivity].
  match goal with
  | |- context [negb ?b] => destruct (negb b)
  end; split; reflexivity.
Qed.

(** C4: what the code does.  [Close] decides on the [Flags] member of the
    parameters, the setup flags, and never reads the feature word.  On a
    ring set up without flags whose kernel reported the single-mmap
    feature, it unmaps the completion region all the same; on a ring set
    up with [SetupIOPoll] (bit 0 of the setup flags) whose kernel did not
    report the feature, it leaves the completion region mapped. *)
Theorem Close_tests_setup_flags :
  Z.land (Params.Features (Params.mk 8 0 FeatSingleMmap)) FeatSingleMmap <> 0 /\
  trace (snd (Close (fresh_ring 8 (Params.mk 8 0 FeatSingleMmap)) (boot linux)))
  = [Called (SYS_MUNMAP 4096 8) 0; Called (SYS_MUNMAP 8192 16) 0;
     Called (SYS_CLOSE 3) 0] /\
  Z.land (Params.Features (Params.mk 8 SetupIOPoll 0)) FeatSingleMmap = 0 /\
  trace (snd (Close (fresh_ring 8 (Params.mk 8 SetupIOPoll 0)) (boot linux)))
  = [Called (SYS_MUNMAP 4096 8) 0; Called (SYS_CLOSE 3) 0].
Proof.
  split; [discriminate|]. repeat split.
Qed.

(** * Further properties of the code *)

(** ** [Sqe] alone on the ring *)

Lemma fst_run_step (env : list interference) (q1 : SubmitQueue.t) (pc1 : SqePc)
  (ev1 : list SqeEvent) :
  fst (let '(pc2, q2, ev2) := Sqe_run env q1 pc1 in (pc2, q2, ev1 ++ ev2))
  = fst (Sqe_run env q1 pc1).
Proof. now destruct (Sqe_run env q1 pc1) as [[pc2 q2] ev2]. Qed.

Lemma quiet_add (env : list interference) (N h t pt : Z) (st : RingState) :
  0 <= h -> h + 1 < uint32_modulus -> 0 <= t < uint32_modulus ->
  fst (Sqe_run (quiet :: env) (SubmitQueue.mk N h t pt st) AtGetIdx)
  = fst (Sqe_run env (SubmitQueue.mk N (h + 1) t pt st)
           (if h + 1 =? N then AtWrap (h + 1) else AtTail (h + 1))).
Proof.
  intros H0 H1 Ht. cbn [Sqe_run].
  rewrite interfere_quiet by (cbn [SubmitQueue.Head SubmitQueue.Tail]; lia).
  cbn [Sqe_step]. unfold AddUint32_Head. cbn [SubmitQueue.Head SubmitQueue.Size].
  rewrite uint32_small by lia.
  destruct (h + 1 =? N); apply fst_run_step.
Qed.

Lemma quiet_wrap (env : list interference) (N v t pt : Z) (st : RingState) :
  0 <= v < uint32_modulus -> 0 <= t < uint32_modulus ->
  fst (Sqe_run (quiet :: env) (SubmitQueue.mk N v t pt st) (AtWrap v))
  = fst (Sqe_run env (SubmitQueue.mk N 0 t pt st) (AtTail v)).
Proof.
  intros Hv Ht. cbn [Sqe_run].
  rewrite interfere_quiet by (cbn [SubmitQueue.Head SubmitQueue.Tail]; lia).
  cbn [Sqe_step]. unfold CompareAndSwapUint32_Head. cbn [SubmitQueue.Head].
  rewrite Z.eqb_refl. cbn [negb]. apply fst_run_step.
Qed.

Lemma quiet_tail_free (env : list interference) (N h t v pt : Z) (st : RingState) :
  0 <= h < uint32_modulus -> 0 <= t < uint32_modulus -> t <> v ->
  fst (Sqe_run (quiet :: env) (SubmitQueue.mk N h t pt st) (AtTail v))
  = (Returned v, SubmitQueue.mk N h t pt st).
Proof.
  intros Hh Ht Hne. cbn [Sqe_run].
  rewrite interfere_quiet by (cbn [SubmitQueue.Head SubmitQueue.Tail]; lia).
  cbn [Sqe_step]. unfold LoadUint32_Tail. cbn [SubmitQueue.Tail].
  apply Z.eqb_neq in Hne. rewrite Hne. cbn [negb].
  rewrite fst_run_step. now rewrite Sqe_run_Returned.
Qed.

Lemma quiet_tail_taken (env : list interference) (N h v pt : Z) (st : RingState) :
  0 <= h < uint32_modulus -> 0 <= v < uint32_modulus ->
  fst (Sqe_run (quiet :: env) (SubmitQueue.mk N h v pt st) (AtTail v))
  = fst (Sqe_run env (SubmitQueue.mk N h v pt st) AtGetIdx).
Proof.
  intros Hh Hv. cbn [Sqe_run].
  rewrite interfere_quiet by (cbn [SubmitQueue.Head SubmitQueue.Tail]; lia).
  cbn [Sqe_step]. unfold LoadUint32_Tail. cbn [SubmitQueue.Tail].
  rewrite Z.eqb_refl. cbn [negb]. apply fst_run_step.
Qed.

Lemma Sqe_of_run (env : list interference) (r : Ring.t) (q q' : SubmitQueue.t)
  (pc : SqePc) :
  Ring.sq r = Some q ->
  fst (Sqe_run env q AtGetIdx) = (pc, q') ->
  Sqe env r
  = (match pc with Returned v => Returns v | _ => Spins end,
     Ring.set_sq (Some q') r).
Proof.
  intros Hsq Hrun. unfold Sqe, Sqe_on. rewrite Hsq.
  destruct (Sqe_run env q AtGetIdx) as [[pc0 q0] tr].
  cbn [fst] in Hrun. injection Hrun as -> ->.
  now destruct pc.
Qed.

Lemma solo_attempt_free (env : list interference) (N h t pt : Z) (st : RingState) :
  1 <= N < uint32_modulus -> 0 <= h < N -> 0 <= t < uint32_modulus ->
  t <> h + 1 ->
  fst (Sqe_run (quiet :: quiet :: quiet :: env) (SubmitQueue.mk N h t pt st) AtGetIdx)
  = (Returned (h + 1), SubmitQueue.mk N ((h + 1) mod N) t pt st).
Proof.
  intros HN Hh Ht Hne.
  rewrite quiet_add by lia.
  destruct (h + 1 =? N) eqn:E.
  - apply Z.eqb_eq in E.
    rewrite quiet_wrap by lia.
    rewrite quiet_tail_free by lia.
    rewrite E, Z.mod_same by lia. reflexivity.
  - apply Z.eqb_neq in E.
    rewrite quiet_tail_free by lia.
    rewrite Z.mod_small by lia. reflexivity.
Qed.

Lemma solo_attempt_taken (env : list interference) (N h pt : Z) (st : RingState) :
  1 <= N < uint32_modulus -> 0 <= h < N ->
  fst (Sqe_run (quiet :: quiet :: quiet :: env)
         (SubmitQueue.mk N h (h + 1) pt st) AtGetIdx)
  = fst (Sqe_run (if h + 1 =? N then env else quiet :: env)
           (SubmitQueue.mk N ((h + 1) mod N) (h + 1) pt st) AtGetIdx).
Proof.
  intros HN Hh.
  rewrite quiet_add by lia.
  destruct (h + 1 =? N) eqn:E.
  - apply Z.eqb_eq in E.
    rewrite quiet_wrap by lia.
    rewrite quiet_tail_taken by lia.
    rewrite E, Z.mod_same by lia. reflexivity.
  - apply Z.eqb_neq in E.
    rewrite quiet_tail_taken by lia.
    rewrite Z.mod_small by lia. reflexivity.
Qed.

(** On a ring of at least two entries a call of [Sqe] that nobody
    disturbs returns within six atomic operations, whatever the tail is:
    it returns the value after the head, or the one after that when the
    first equals the tail; the value lies between 1 and the size, differs
    from the tail, and the head is left at that value, or at 0 when the
    value is the size.  Nothing else of the ring changes. *)
Theorem Sqe_alone_returns (fd : Z) (p : option Params.t)
  (c : option CompletionQueue.t) (i : option Z) (N h t pt : Z) (st : RingState)
  (fuel : nat) :
  2 <= N < uint32_modulus ->
  0 <= h < N ->
  0 <= t < uint32_modulus ->
  (6 <= fuel)%nat ->
  let v := if h + 1 =? t then (h + 1) mod N + 1 else h + 1 in
  Sqe (repeat quiet fuel) (Ring.mk fd p c (Some (SubmitQueue.mk N h t pt st)) i)
  = (Returns v, Ring.mk fd p c (Some (SubmitQueue.mk N (v mod N) t pt st)) i) /\
  1 <= v <= N /\ v <> t.
Proof.
  intros HN Hh Ht Hf v.
  do 6 (destruct fuel as [|fuel]; [lia|]). clear Hf.
  cbn [repeat].
  assert (Hrun : fst (Sqe_run (quiet :: quiet :: quiet :: quiet :: quiet :: quiet
                                 :: repeat quiet fuel)
                        (SubmitQueue.mk N h t pt st) AtGetIdx)
                 = (Returned v, SubmitQueue.mk N (v mod N) t pt st)
                 /\ 1 <= v <= N /\ v <> t).
  { subst v. destruct (h + 1 =? t) eqn:E.
    - apply Z.eqb_eq in E. subst t.
      pose proof (Z.mod_pos_bound (h + 1) N ltac:(lia)) as Hm.
      rewrite solo_attempt_taken by lia.
      assert (Hne : h + 1 <> (h + 1) mod N + 1).
      { destruct (Z.eq_dec (h + 1) N) as [e|n].
        - rewrite e, Z.mod_same by lia. lia.
        - rewrite Z.mod_small by lia. lia. }
      split; [|lia].
      destruct (h + 1 =? N); now rewrite solo_attempt_free by lia.
    - apply Z.eqb_neq in E.
      rewrite solo_attempt_free by lia. split; [reflexivity | lia]. }
  destruct Hrun as [Hrun Hv]. split; [|exact Hv].
  exact (Sqe_of_run _ (Ring.mk fd p c (Some (SubmitQueue.mk N h t pt st)) i)
           _ _ _ eq_refl Hrun).
Qed.

Lemma Sqe_alone_returns_witness :
  Sqe (repeat quiet 6)
      (Ring.mk 3 None None (Some (SubmitQueue.mk 8 7 8 4096 RingStateEmpty)) None)
  = (Returns 1,
     Ring.mk 3 None None (Some (SubmitQueue.mk 8 1 8 4096 RingStateEmpty)) None).
Proof.
  refine (proj1 (Sqe_alone_returns 3 None None None 8 7 8 4096 RingStateEmpty 6
                   _ _ _ _)); unfold uint32_modulus; lia.
Defined.

Lemma one_entry_spins (pt : Z) (st : RingState) (fuel : nat) :
  (forall v, fst (fst (Sqe_run (repeat quiet fuel)
                         (SubmitQueue.mk 1 0 1 pt st) AtGetIdx)) <> Returned v) /\
  (forall v, fst (fst (Sqe_run (repeat quiet fuel)
                         (SubmitQueue.mk 1 1 1 pt st) (AtWrap 1))) <> Returned v) /\
  (forall v, fst (fst (Sqe_run (repeat quiet fuel)
                         (SubmitQueue.mk 1 0 1 pt st) (AtTail 1))) <> Returned v).
Proof.
  induction fuel as [|fuel [IH1 [IH2 IH3]]].
  - cbn. repeat split; discriminate.
  - cbn [repeat]. repeat split; intros v.
    + rewrite quiet_add by (unfold uint32_modulus; lia). apply IH2.
    + rewrite quiet_wrap by (unfold uint32_modulus; lia). apply IH3.
    + rewrite quiet_tail_taken by (unfold uint32_modulus; lia). apply IH1.
Qed.

(** On a ring of one entry whose tail is 1 a call of [Sqe] never returns:
    the only candidate is 1, it always equals the tail, and however many
    atomic operations the call is given it is still spinning and has left
    everything but the head as it was. *)
Theorem Sqe_one_entry_never_returns (fd : Z) (p : option Params.t)
  (c : option CompletionQueue.t) (i : option Z) (pt : Z) (st : RingState)
  (fuel : nat) :
  fst (Sqe (repeat quiet fuel)
         (Ring.mk fd p c (Some (SubmitQueue.mk 1 0 1 pt st)) i))
  = Spins.
Proof.
  unfold Sqe, Sqe_on. cbn [Ring.sq].
  pose proof (proj1 (one_entry_spins pt st fuel)) as H.
  destruct (Sqe_run (repeat quiet fuel) (SubmitQueue.mk 1 0 1 pt st) AtGetIdx)
    as [[pc q'] tr].
  cbn [fst] in *. destruct pc; try reflexivity.
  now elim (H v).
Qed.

Lemma Sqe_run_candidate (env : list interference) :
  forall (pc : SqePc) (q q' : SubmitQueue.t) (v : Z) (tr : list SqeEvent),
    (forall v0, pc <> Returned v0) ->
    Sqe_run env q pc = (Returned v, q', tr) ->
    exists tr0 t,
      tr = tr0 ++ [EvLoadTail t; EvReturn v] /\ t <> v /\
      ((In (EvAddHead v) tr0 /\ 0 <= v < uint32_modulus) \/
       pc = AtWrap v \/ pc = AtTail v).
Proof.
  induction env as [|e env IH]; intros pc q q' v tr Hpc Hrun.
  - destruct pc; cbn in Hrun; injection Hrun as Hv _ _;
      try discriminate. now elim (Hpc v0).
  - destruct pc as [|v0|v0|v0]; [| | |now elim (Hpc v0)]; cbn [Sqe_run] in Hrun.
    + cbn [Sqe_step] in Hrun. unfold AddUint32_Head in Hrun.
      set (c := uint32 (SubmitQueue.Head (interfere e q) + 1)) in *.
      assert (Hc : 0 <= c < uint32_modulus)
        by (apply Z.mod_pos_bound; reflexivity).
      destruct (c =? SubmitQueue.Size (interfere e q));
        match type of Hrun with
        | context [Sqe_run env ?q1 ?pc1] =>
            destruct (Sqe_run env q1 pc1) as [[pc2 q2] ev2] eqn:E
        end;
        injection Hrun as -> -> <-;
        (apply IH in E; [|intros; discriminate]);
        destruct E as (tr0 & t & -> & Hne & Hin);
        exists (EvAddHead c :: tr0), t;
        (split; [reflexivity|]); (split; [exact Hne|]); left;
        (destruct Hin as [[Hin Hr]|[Hin|Hin]];
         [ split; [now right | exact Hr]
         | first [discriminate | injection Hin as <-; split; [now left | exact Hc]]
         | first [discriminate | injection Hin as <-; split; [now left | exact Hc]] ]).
    + cbn [Sqe_step] in Hrun. unfold CompareAndSwapUint32_Head in Hrun.
      destruct (SubmitQueue.Head (interfere e q) =? v0); cbn [negb] in Hrun;
        match type of Hrun with
        | context [Sqe_run env ?q1 ?pc1] =>
            destruct (Sqe_run env q1 pc1) as [[pc2 q2] ev2] eqn:E
        end;
        injection Hrun as -> -> <-;
        (apply IH in E; [|intros; discriminate]);
        destruct E as (tr0 & t & -> & Hne & Hin).
      * exists (EvCasHead v0 0 true :: tr0), t.
        split; [reflexivity|]. split; [exact Hne|].
        destruct Hin as [[Hin Hr]|[Hin|Hin]].
        -- left. split; [now right | exact Hr].
        -- discriminate.
        -- injection Hin as <-. right. now left.
      * exists (EvCasHead v0 0 false :: EvGosched :: tr0), t.
        split; [reflexivity|]. split; [exact Hne|].
        destruct Hin as [[Hin Hr]|[Hin|Hin]]; try discriminate.
        left. split; [now do 2 right | exact Hr].
    + cbn [Sqe_step] in Hrun. unfold LoadUint32_Tail in Hrun.
      destruct (SubmitQueue.Tail (interfere e q) =? v0) eqn:Et; cbn [negb] in Hrun.
      * match type of Hrun with
        | context [Sqe_run env ?q1 ?pc1] =>
            destruct (Sqe_run env q1 pc1) as [[pc2 q2] ev2] eqn:E
        end.
        injection Hrun as -> -> <-.
        apply IH in E; [|intros; discriminate].
        destruct E as (tr0 & t & -> & Hne & Hin).
        exists (EvLoadTail (SubmitQueue.Tail (interfere e q)) :: EvGosched :: tr0), t.
        split; [reflexivity|]. split; [exact Hne|].
        destruct Hin as [[Hin Hr]|[Hin|Hin]]; try discriminate.
        left. split; [now do 2 right | exact Hr].
      * rewrite Sqe_run_Returned in Hrun. injection Hrun as <- _ <-.
        exists [], (SubmitQueue.Tail (interfere e q)).
        split; [reflexivity|]. split; [now apply Z.eqb_neq|].
        right. now right.
Qed.

(** Whatever the other parties do to the head and the tail, a call of
    [Sqe] that returns [v] has obtained [v] from one of its own increments
    of the head, and the last thing it did was to load a tail different
    from [v]: it never returns a value it did not draw, nor the value of
    the tail it read last.  The value is a 32-bit number. *)
Theorem Sqe_returns_drawn_candidate (env : list interference)
  (q q' : SubmitQueue.t) (v : Z) (tr : list SqeEvent) :
  Sqe_on env q = (Some v, q', tr) ->
  exists tr0 t,
    tr = tr0 ++ [EvLoadTail t; EvReturn v] /\
    t <> v /\
    In (EvAddHead v) tr0 /\
    0 <= v < uint32_modulus.
Proof.
  unfold Sqe_on. intros H.
  destruct (Sqe_run env q AtGetIdx) as [[pc q0] tr1] eqn:E.
  injection H as Hpc -> ->.
  destruct pc; try discriminate. injection Hpc as ->.
  apply Sqe_run_candidate in E; [|intros; discriminate].
  destruct E as (tr0 & t & -> & Hne & [[Hin Hr]|[Hc|Hc]]); try discriminate.
  now exists tr0, t.
Qed.

Lemma Sqe_returns_drawn_candidate_witness :
  exists tr0 t,
    [EvAddHead 2; EvCasHead 2 0 false; EvGosched;
     EvAddHead 4; EvLoadTail 0; EvReturn 4]
    = tr0 ++ [EvLoadTail t; EvReturn 4] /\
    t <> 4 /\ In (EvAddHead 4) tr0 /\ 0 <= 4 < uint32_modulus.
Proof.
  exact (Sqe_returns_drawn_candidate
           [quiet; another_AddUint32; quiet; quiet]
           (SubmitQueue.mk 2 1 0 4096 RingStateEmpty)
           (SubmitQueue.mk 2 4 0 4096 RingStateEmpty) 4 _ eq_refl).
Defined.

(** Two goroutines at the wrap.  The head stands one below the size [N].
    The first goroutine increments it to [N] and is about to swap it to
    0 when the second increments it to [N + 1]: the swap fails, and the
    two calls return [N + 1] and [N + 2], both past the last entry.  The
    head is left at [N + 2] and is not brought back: the next call, made
    alone, returns [N + 3]. *)
Theorem Sqe_contended_wrap_leaves_range (N pt : Z) (st : RingState)
  (env : list interference) :
  1 <= N ->
  N + 3 < uint32_modulus ->
  Sqe_pair [GoA; GoB; GoA; GoB; GoA; GoA]
    (SubmitQueue.mk N (N - 1) 0 pt st) AtGetIdx AtGetIdx
  = (Returned (N + 2), Returned (N + 1), SubmitQueue.mk N (N + 2) 0 pt st) /\
  fst (Sqe_run (quiet :: quiet :: env) (SubmitQueue.mk N (N + 2) 0 pt st) AtGetIdx)
  = (Returned (N + 3), SubmitQueue.mk N (N + 3) 0 pt st).
Proof.
  intros HN Hlt. split.
  - assert (E0 : N - 1 + 1 = N) by lia.
    assert (E1 : N + 1 + 1 = N + 2) by lia.
    assert (U0 : uint32 N = N) by (apply uint32_small; lia).
    assert (U1 : uint32 (N + 1) = N + 1) by (apply uint32_small; lia).
    assert (U2 : uint32 (N + 2) = N + 2) by (apply uint32_small; lia).
    assert (B1 : (N + 1 =? N) = false) by (apply Z.eqb_neq; lia).
    assert (B2 : (N + 2 =? N) = false) by (apply Z.eqb_neq; lia).
    assert (B3 : (0 =? N + 1) = false) by (apply Z.eqb_neq; lia).
    assert (B4 : (0 =? N + 2) = false) by (apply Z.eqb_neq; lia).
    repeat (progress
              (cbn [Sqe_pair Sqe_step negb SubmitQueue.Head SubmitQueue.Size
                    SubmitQueue.Tail SubmitQueue.ptr SubmitQueue.state];
               unfold AddUint32_Head, CompareAndSwapUint32_Head, LoadUint32_Tail,
                 SubmitQueue.set_Head;
               cbn [SubmitQueue.Head SubmitQueue.Size SubmitQueue.Tail
                    SubmitQueue.ptr SubmitQueue.state];
               rewrite ?E0, ?E1, ?U0, ?U1, ?U2, ?Z.eqb_refl, ?B1, ?B2, ?B3, ?B4)).
    reflexivity.
  - rewrite quiet_add by lia.
    replace (N + 2 + 1) with (N + 3) by lia.
    replace (N + 3 =? N) with false by (symmetry; apply Z.eqb_neq; lia).
    now rewrite quiet_tail_free by lia.
Qed.

Lemma Sqe_contended_wrap_leaves_range_witness :
  Sqe_pair [GoA; GoB; GoA; GoB; GoA; GoA]
    (SubmitQueue.mk 8 7 0 4096 RingStateEmpty) AtGetIdx AtGetIdx
  = (Returned 10, Returned 9, SubmitQueue.mk 8 10 0 4096 RingStateEmpty).
Proof.
  refine (proj1 (Sqe_contended_wrap_leaves_range 8 4096 RingStateEmpty [] _ _));
    unfold uint32_modulus; lia.
Defined.

(** ** The identifier counter, in general *)

Lemma Idx_frame (r : Ring.t) :
  Ring.sq (snd (Idx r)) = Ring.sq r /\ Ring.cq (snd (Idx r)) = Ring.cq r /\
  Ring.fd (snd (Idx r)) = Ring.fd r /\ Ring.p (snd (Idx r)) = Ring.p r.
Proof. unfold Idx. destruct (Ring.idx r); now destruct r. Qed.

(** From any counter value [i], with no bound on the number of calls:
    the k-th call of [Idx], whichever goroutine makes it, returns
    [(i + k) mod 2^64], so the values repeat with period 2^64 and 0 follows
    2^64 - 1; the calls change nothing of the ring but the counter. *)
Theorem Idx_counts_modulo_2_64 (schedule : list nat) :
  forall (r : Ring.t) (i : Z),
    Ring.idx r = Some i ->
    Idx_values schedule r
    = map (fun k => (i + Z.of_nat k) mod uint64_modulus)
          (seq 1 (length schedule)) /\
    Ring.idx (snd (Idx_calls schedule r))
    = Some (match schedule with
            | [] => i
            | _ => (i + Z.of_nat (length schedule)) mod uint64_modulus
            end) /\
    Ring.sq (snd (Idx_calls schedule r)) = Ring.sq r /\
    Ring.cq (snd (Idx_calls schedule r)) = Ring.cq r /\
    Ring.fd (snd (Idx_calls schedule r)) = Ring.fd r /\
    Ring.p (snd (Idx_calls schedule r)) = Ring.p r.
Proof.
  unfold Idx_values.
  induction schedule as [|g rest IH]; intros r i Hi.
  - cbn. now rewrite Hi.
  - cbn [Idx_calls List.length].
    pose proof (Idx_frame r) as Hfr.
    unfold Idx in *. rewrite Hi in *. cbn [snd] in Hfr.
    specialize (IH (Ring.set_idx (Some (uint64 (i + 1))) r) (uint64 (i + 1)) eq_refl).
    destruct (Idx_calls rest (Ring.set_idx (Some (uint64 (i + 1))) r)) as [vs r2].
    cbn [fst snd flat_map app] in *.
    destruct IH as (IHv & IHi & IHs & IHc & IHf & IHp).
    destruct Hfr as (Hs & Hc & Hf & Hp).
    repeat split; try congruence.
    + rewrite IHv. cbn [seq map]. f_equal.
      rewrite <- (seq_shift (List.length rest) 1), map_map.
      apply map_ext. intros k. unfold uint64.
      rewrite Z.add_mod_idemp_l by discriminate. f_equal. lia.
    + rewrite IHi. f_equal. destruct rest as [|g' rest'].
      * reflexivity.
      * unfold uint64. rewrite Z.add_mod_idemp_l by discriminate.
        f_equal. cbn [List.length]. lia.
Qed.

Lemma Idx_counts_modulo_2_64_witness :
  Idx_values [0%nat; 1%nat; 0%nat]
    (Ring.set_idx (Some (uint64_modulus - 2)) ring8)
  = [uint64_modulus - 1; 0; 1].
Proof.
  exact (proj1 (Idx_counts_modulo_2_64 [0%nat; 1%nat; 0%nat]
                  (Ring.set_idx (Some (uint64_modulus - 2)) ring8)
                  (uint64_modulus - 2) eq_refl)).
Defined.

(** ** Construction and teardown, in general *)

Lemma closeSq_frame (r : Ring.t) (w : World) :
  Ring.fd (snd (fst (closeSq r w))) = Ring.fd r /\
  Ring.p (snd (fst (closeSq r w))) = Ring.p r /\
  Ring.cq (snd (fst (closeSq r w))) = Ring.cq r /\
  Ring.idx (snd (fst (closeSq r w))) = Ring.idx r.
Proof.
  unfold closeSq. destruct (Ring.sq r); [|now repeat split].
  destruct (Syscall6 _ w) as [errno w1].
  destruct (negb (errno =? 0)); now destruct r.
Qed.

Lemma closeCq_frame (r : Ring.t) (w : World) :
  Ring.fd (snd (fst (closeCq r w))) = Ring.fd r /\
  Ring.p (snd (fst (closeCq r w))) = Ring.p r /\
  Ring.sq (snd (fst (closeCq r w))) = Ring.sq r /\
  Ring.idx (snd (fst (closeCq r w))) = Ring.idx r.
Proof.
  unfold closeCq. destruct (Ring.cq r); [|now repeat split].
  destruct (Syscall6 _ w) as [errno w1].
  destruct (negb (errno =? 0)); now destruct r.
Qed.

Lemma Close_frame (r : Ring.t) (w : World) :
  Ring.fd (snd (fst (Close r w))) = Ring.fd r /\
  Ring.p (snd (fst (Close r w))) = Ring.p r /\
  Ring.idx (snd (fst (Close r w))) = Ring.idx r.
Proof.
  unfold Close.
  pose proof (closeSq_frame r w) as Hs.
  destruct (closeSq r w) as [[[e|] r1] w1]; cbn [fst snd] in *.
  - tauto.
  - destruct Hs as (Hf & Hp & Hc & Hi).
    destruct (Ring.p r1) as [params|] eqn:Ep; cbn [fst snd];
      [|repeat split; congruence].
    destruct (Z.land (Params.Flags params) FeatSingleMmap =? 0).
    + pose proof (closeCq_frame r1 w1) as Hq.
      destruct (closeCq r1 w1) as [[[e|] r2] w2]; cbn [fst snd] in *.
      * destruct Hq as (Hf2 & Hp2 & _ & Hi2). repeat split; congruence.
      * destruct (syscall_Close (Ring.fd r2) w2) as [err3 w3]. cbn [fst snd].
        destruct Hq as (Hf2 & Hp2 & _ & Hi2). repeat split; congruence.
    + destruct (syscall_Close (Ring.fd r1) w1) as [err3 w3]. cbn [fst snd].
      repeat split; congruence.
Qed.

Lemma Close_does_not_panic (r : Ring.t) (w : World) :
  Ring.p r <> None -> fst (fst (Close r w)) <> Panics.
Proof.
  intros Hp. unfold Close.
  pose proof (closeSq_frame r w) as Hs.
  destruct (closeSq r w) as [[[e|] r1] w1]; cbn [fst snd] in *; [discriminate|].
  destruct Hs as (_ & Hp1 & _).
  destruct (Ring.p r1) as [params|]; [|congruence].
  destruct (Z.land (Params.Flags params) FeatSingleMmap =? 0).
  - destruct (closeCq r1 w1) as [[[e|] r2] w2]; [discriminate|].
    destruct (syscall_Close (Ring.fd r2) w2). discriminate.
  - destruct (syscall_Close (Ring.fd r1) w1). discriminate.
Qed.

(** [New] returns a ring or an error, never both and never neither.  On
    the ring it returns the two queues, the parameters and the counter are
    all set, so [Idx] and [Close] do not panic on it; the ring state is
    Empty and the first identifier is 1, whatever [Setup] and [MmapRing]
    returned. *)
Theorem New_ring_is_usable
  (Setup : Z -> Params.t -> World -> Z * Params.t * option error * World)
  (MmapRing : Z -> Params.t -> World ->
              SubmitQueue.t * CompletionQueue.t * option error * World)
  (size : Z) (w : World) :
  match New Setup MmapRing size w with
  | (Some r, None, _) =>
      fst (Idx r) = Returns 1 /\
      (forall w', fst (fst (Close r w')) <> Panics) /\
      (exists q, Ring.sq r = Some q /\ SubmitQueue.state q = RingStateEmpty) /\
      Ring.cq r <> None /\
      Ring.p r <> None
  | (None, Some _, _) => True
  | _ => False
  end.
Proof.
  unfold New.
  destruct (Setup size Params.zero w) as [[[fd p] [e|]] w1]; [exact I|].
  destruct (MmapRing fd p w1) as [[[sq cq] [e|]] w2]; [exact I|].
  split; [reflexivity|].
  split; [intros w'; apply Close_does_not_panic; discriminate|].
  split; [eexists; split; reflexivity|].
  split; discriminate.
Qed.

(** When [New] reports an error it returns no ring, the error is the one
    [Setup] or [MmapRing] gave, unchanged, and the world is as that
    function left it.  [New] makes no call of its own: when the mapping
    fails, the descriptor that [Setup] returned is not closed. *)
Theorem New_error_is_passed_on
  (Setup : Z -> Params.t -> World -> Z * Params.t * option error * World)
  (MmapRing : Z -> Params.t -> World ->
              SubmitQueue.t * CompletionQueue.t * option error * World)
  (size : Z) (w w' : World) (ro : option Ring.t) (e : error) :
  New Setup MmapRing size w = (ro, Some e, w') ->
  ro = None /\
  ((exists fd p, Setup size Params.zero w = (fd, p, Some e, w')) \/
   (exists fd p w1 sq cq,
       Setup size Params.zero w = (fd, p, None, w1) /\
       MmapRing fd p w1 = (sq, cq, Some e, w'))).
Proof.
  unfold New.
  destruct (Setup size Params.zero w) as [[[fd p] [e1|]] w1].
  - intros H. injection H as <- <- <-. split; [reflexivity|].
    left. exists fd, p. reflexivity.
  - destruct (MmapRing fd p w1) as [[[sq cq] [e2|]] w2] eqn:EM; [|discriminate].
    intros H. injection H as <- <- <-. split; [reflexivity|].
    right. exists fd, p, w1, sq, cq. split; [reflexivity | exact EM].
Qed.

Lemma New_error_is_passed_on_witness :
  @None Ring.t = None /\
  ((exists fd p,
       mock_Setup 8 Params.zero (boot linux)
       = (fd, p, Some (Wrap (Errno 12) "mmap"), boot linux)) \/
   (exists fd p w1 sq cq,
       mock_Setup 8 Params.zero (boot linux) = (fd, p, None, w1) /\
       failing_MmapRing fd p w1 = (sq, cq, Some (Wrap (Errno 12) "mmap"), boot linux))).
Proof.
  exact (New_error_is_passed_on mock_Setup failing_MmapRing 8
           (boot linux) (boot linux) None (Wrap (Errno 12) "mmap") eq_refl).
Defined.

(** On a kernel that accepts every call, [Close] on a ring with both
    queues mapped returns nil after exactly these calls, in this order:
    the unmap of the submission region, the unmap of the completion region
    when bit 0 of [Flags] is unset, the close of the ring's descriptor.
    It leaves [r.sq] nil, and [r.cq] nil exactly when it unmapped it. *)
Theorem Close_releases_in_order (r : Ring.t) (q : SubmitQueue.t)
  (c : CompletionQueue.t) (params : Params.t) (w : World) :
  Ring.sq r = Some q ->
  Ring.cq r = Some c ->
  Ring.p r = Some params ->
  (forall hist call, kernel w hist call = 0) ->
  let two := Z.land (Params.Flags params) FeatSingleMmap =? 0 in
  Close r w
  = (Returns None,
     (if two then Ring.set_cq None (Ring.set_sq None r) else Ring.set_sq None r),
     mkWorld (kernel w)
       (trace w
        ++ [Called (SYS_MUNMAP (SubmitQueue.ptr q) (SubmitQueue.Size q)) 0]
        ++ (if two
            then [Called (SYS_MUNMAP (CompletionQueue.ptr c) (CompletionQueue.Size c)) 0]
            else [])
        ++ [Called (SYS_CLOSE (Ring.fd r)) 0])).
Proof.
  intros Hsq Hcq Hp Hk two.
  destruct r as [f p0 c0 q0 i]. cbn in Hsq, Hcq, Hp. subst p0 c0 q0.
  unfold Close, closeSq, closeCq, syscall_Close, Syscall6, record.
  cbn [Ring.sq Ring.cq Ring.p Ring.fd Ring.set_sq Ring.set_cq kernel trace].
  rewrite !Hk. cbn [Z.eqb negb].
  cbn [Ring.sq Ring.cq Ring.p Ring.fd Ring.set_sq Ring.set_cq kernel trace].
  fold two. destruct two.
  - cbn [Ring.sq Ring.cq Ring.p Ring.fd Ring.set_sq Ring.set_cq kernel trace].
    rewrite !Hk. cbn [Z.eqb negb].
    cbn [Ring.sq Ring.cq Ring.p Ring.fd Ring.set_sq Ring.set_cq kernel trace].
    rewrite !Hk. cbn [Z.eqb]. rewrite <- !app_assoc. reflexivity.
  - rewrite !Hk. cbn [Z.eqb]. rewrite <- !app_assoc. reflexivity.
Qed.

Lemma Close_releases_in_order_witness :
  Close ring8 (boot always_ok)
  = (Returns None, Ring.set_cq None (Ring.set_sq None ring8),
     mkWorld always_ok
       [Called (SYS_MUNMAP 4096 8) 0; Called (SYS_MUNMAP 8192 16) 0;
        Called (SYS_CLOSE 3) 0]).
Proof.
  exact (Close_releases_in_order ring8
           (SubmitQueue.mk 8 0 0 4096 RingStateEmpty)
           (CompletionQueue.mk 16 8192) (Params.mk 8 0 FeatSingleMmap)
           (boot always_ok) eq_refl eq_refl eq_refl (fun _ _ => eq_refl)).
Defined.

(** Whatever the ring and the kernel, [Close] makes at most three calls
    and nothing but unmaps and one close: every call before the last is an
    unmap that succeeded, and the descriptor it closes is the ring's own.
    So it never closes the descriptor after a failed unmap, never goes on
    after a failure, and it returns nil only when its last call was the
    close of the descriptor and that call succeeded. *)
Theorem Close_keeps_teardown_order (r : Ring.t) (w : World) :
  exists evs,
    snd (Close r w) = mkWorld (kernel w) (trace w ++ evs) /\
    teardown_order (Ring.fd r) evs /\
    (length evs <= 3)%nat /\
    (fst (fst (Close r w)) = Returns None ->
     exists pre, evs = pre ++ [Called (SYS_CLOSE (Ring.fd r)) 0]).
Proof.
  destruct w as [k tr].
  destruct r as [f [params|] [c|] [q|] i];
    unfold Close, closeSq, closeCq, syscall_Close, Syscall6, record;
    cbn [Ring.sq Ring.cq Ring.p Ring.fd Ring.set_sq Ring.set_cq kernel trace];
    teardown_cases;
    rewrite <- ?app_assoc; cbn [app];
    match goal with
    | |- exists evs, mkWorld _ (_ ++ ?l) = _ /\ _ =>
        exists l; split; [reflexivity|]
    | |- exists evs, mkWorld _ ?t = _ /\ _ =>
        exists []; split; [now rewrite app_nil_r|]
    end;
    (split; [cbn [teardown_order]; rewrite ?E, ?E0, ?E1; cbn [teardown_order];
             rewrite ?E, ?E0, ?E1; auto |]);
    (split; [cbn [List.length]; lia |]);
    intros H; try discriminate;
    repeat match goal with
           | E : (?x =? 0) = true |- _ => apply Z.eqb_eq in E
           end;
    cbn [Ring.fd Ring.set_sq Ring.set_cq kernel trace] in *;
    rewrite <- ?app_assoc in *; cbn [app] in *;
    repeat match goal with
           | E : ?t = 0, H' : context [?t] |- _ =>
               lazymatch H' with
               | E => fail
               | _ => rewrite E in H'
               end
           | E : ?t = 0 |- context [?t] => rewrite E
           end.
  all: try (eexists [_; _]; reflexivity).
  all: try (eexists [_]; reflexivity).
  all: try (exists []; reflexivity).
Qed.

Lemma Close_nil_releases_sq (r r1 : Ring.t) (w w1 : World) :
  Close r w = (Returns None, r1, w1) -> Ring.sq r1 = None.
Proof.
  intros H. unfold Close in H.
  destruct (closeSq r w) as [[[e|] r0] w0] eqn:Esq; [discriminate|].
  apply closeSq_None in Esq. destruct Esq as (Hs & _).
  destruct (Ring.p r0) as [params|]; [|discriminate].
  destruct (Z.land (Params.Flags params) FeatSingleMmap =? 0).
  - destruct (closeCq r0 w0) as [[[e|] r2] w2] eqn:Ecq; [discriminate|].
    apply closeCq_None in Ecq. destruct Ecq as (_ & _ & _ & Hs2).
    destruct (syscall_Close (Ring.fd r2) w2) as [err3 w3].
    injection H as _ <- _. congruence.
  - destruct (syscall_Close (Ring.fd r0) w0) as [err3 w3].
    injection H as _ <- _. exact Hs.
Qed.

(** After a [Close] that returned nil the submit queue is gone:
    [SubmitHead], [SubmitTail] and [Sqe] on the ring it leaves dereference
    nil and panic.  The descriptor number, the parameters and the
    identifier counter are untouched, so [Idx] goes on counting where it
    was. *)
Theorem use_after_Close_panics (r r1 : Ring.t) (w w1 : World) :
  Close r w = (Returns None, r1, w1) ->
  SubmitHead r1 = Panics /\
  SubmitTail r1 = Panics /\
  (forall env, Sqe env r1 = (Panics, r1)) /\
  fst (Idx r1) = fst (Idx r) /\
  Ring.fd r1 = Ring.fd r /\
  Ring.p r1 = Ring.p r.
Proof.
  intros H.
  pose proof (Close_nil_releases_sq r r1 w w1 H) as Hsq.
  pose proof (Close_frame r w) as Hfr. rewrite H in Hfr. cbn [fst snd] in Hfr.
  destruct Hfr as (Hf & Hp & Hi).
  unfold SubmitHead, SubmitTail, Sqe, Idx. rewrite Hsq, Hi.
  repeat split; try assumption.
  now destruct (Ring.idx r).
Qed.

Lemma use_after_Close_panics_witness :
  SubmitHead (Ring.set_cq None (Ring.set_sq None ring8)) = Panics.
Proof.
  exact (proj1 (use_after_Close_panics ring8
                  (Ring.set_cq None (Ring.set_sq None ring8))
                  (boot linux)
                  (mkWorld linux [Called (SYS_MUNMAP 4096 8) 0;
                                  Called (SYS_MUNMAP 8192 16) 0;
                                  Called (SYS_CLOSE 3) 0])
                  eq_refl)).
Defined.

(** An error that [Close] returns tells which step failed, and carries
    the errno of the last call [Close] made, which is not 0.  With the
    message of the submission unmap the ring is untouched; with the
    message of the completion unmap the submit queue has been released and
    the completion queue has not; a bare errno comes from the close of the
    descriptor, after the submit queue was released. *)
Theorem Close_error_tells_the_step (r r1 : Ring.t) (w w1 : World) (err : error) :
  Close r w = (Returns (Some err), r1, w1) ->
  cause err <> 0 /\
  (exists pre c, trace w1 = trace w ++ pre ++ [Called c (cause err)]) /\
  ((err = Wrap (Errno (cause err)) "failed to munmap sq ring" /\ r1 = r) \/
   (err = Wrap (Errno (cause err)) "failed to munmap cq ring" /\
    Ring.sq r1 = None /\ Ring.cq r1 = Ring.cq r /\ Ring.cq r <> None) \/
   (err = Errno (cause err) /\ Ring.sq r1 = None /\
    exists pre, trace w1
                = trace w ++ pre ++ [Called (SYS_CLOSE (Ring.fd r)) (cause err)])).
Proof.
  destruct w as [k tr].
  destruct r as [f [params|] [c|] [q|] i];
    unfold Close, closeSq, closeCq, syscall_Close, Syscall6, record;
    cbn [Ring.sq Ring.cq Ring.p Ring.fd Ring.set_sq Ring.set_cq kernel trace];
    teardown_cases;
    intros H; try discriminate; injection H as <- <- <-;
    cbn [cause kernel trace Ring.fd Ring.sq Ring.cq Ring.set_sq Ring.set_cq] in *;
    rewrite <- ?app_assoc in *; cbn [app] in *;
    repeat match goal with
           | E : (_ =? 0) = false |- _ => apply Z.eqb_neq in E
           end;
    (split; [assumption|]);
    (split;
     [ first [ eexists [], _; reflexivity
             | eexists [_], _; reflexivity
             | eexists [_; _], _; reflexivity ] |]);
    first [ left; split; reflexivity
          | right; left; repeat split; discriminate
          | right; right; split; [reflexivity|]; split; [reflexivity|];
            first [ exists []; reflexivity
                  | eexists [_]; reflexivity
                  | eexists [_; _]; reflexivity ] ].
Qed.

Lemma Close_error_tells_the_step_witness :
  cause (Wrap (Errno EINVAL) "failed to munmap sq ring") <> 0.
Proof.
  exact (proj1 (Close_error_tells_the_step ring_two_mappings ring_two_mappings
                  (boot (munmap_fails_at 4096))
                  (mkWorld (munmap_fails_at 4096) [Called (SYS_MUNMAP 4096 8) EINVAL])
                  (Wrap (Errno EINVAL) "failed to munmap sq ring") eq_refl)).
Defined.

(** ** The opcode constants *)

Lemma const_block_iota (names : list string) :
  forall i : Z,
    const_block (map (fun n => (n, None)) names) i (Some Iota)
    = combine names (map (fun k => i + Z.of_nat k) (seq 0 (length names))).
Proof.
  induction names as [|n names IH]; intros i; [reflexivity|].
  cbn [map const_block const_value List.length seq combine].
  rewrite IH. f_equal; [f_equal; lia|].
  f_equal. rewrite <- (seq_shift (List.length names) 0), map_map.
  apply map_ext. intros k. lia.
Qed.

